(** * Ditto::Result — a shallow embedding of [include/ditto/result.h]

    The header defines a manually tagged union over raw aligned storage:
    a [bool m_is_ok] discriminant next to an untyped [m_memory_buffer] into
    which the live payload is placement-constructed.  The embedding keeps
    that shape: a [Result] is a flag and a list of bytes, payload classes
    are given by their special member functions acting on object
    representations and on the free store, and every member function of the
    header is a function over those. *)

From Stdlib Require Import ZArith Lia Bool.
From stdpp Require Import base gmap list strings.

Local Open Scope Z_scope.

(** ** The abstract machine: free store, termination, early return *)

Module Machine.

(** Addressable storage outside the object under study (free store and
    statics): addresses to cell contents.  Address [0] is [nullptr]. *)
Abbreviation heap := (gmap Z Z).

(** A call either comes back with a value or the process is terminated. *)
Inductive Outcome (A : Type) : Type :=
| Abort : Outcome A
| Ret (a : A) : Outcome A.
Arguments Abort {A}.
Arguments Ret {A} a.

(** Code running against the free store. *)
Definition M (A : Type) : Type := heap -> Outcome (A * heap).

Definition ret {A} (a : A) : M A := fun h => Ret (a, h).

Definition bind {A B} (c : M A) (k : A -> M B) : M B :=
  fun h => match c h with
           | Abort => Abort
           | Ret (a, h') => k a h'
           end.

(** A step that cannot terminate the process. *)
Definition step {A} (f : heap -> A * heap) : M A := fun h => Ret (f h).

(** A step with no result, only an effect on the store. *)
Definition effect (f : heap -> heap) : M unit := fun h => Ret (tt, f h).

(** A store-independent computation that may terminate the process. *)
Definition lift {A} (o : Outcome A) : M A :=
  fun h => match o with
           | Abort => Abort
           | Ret a => Ret (a, h)
           end.

(** Modelled from the spec: [DITTO_VERIFY] comes from [ditto/assert.h],
    which is not part of the sources at hand.  The spec describes it as
    "verify condition, else abort the process with a diagnostic". *)
Definition DITTO_VERIFY (condition : bool) : Outcome unit :=
  if condition then Ret tt else Abort.

(** Sequencing of two store-independent steps. *)
Definition and_then {A B} (o : Outcome A) (k : A -> Outcome B) : Outcome B :=
  match o with
  | Abort => Abort
  | Ret a => k a
  end.

(** Inside a function body a statement either falls through with a value
    or leaves the function through [return]. *)
Inductive flow (R A : Type) : Type :=
| Return (r : R) : flow R A
| Value (a : A) : flow R A.
Arguments Return {R A} r.
Arguments Value {R A} a.

(** Statement sequencing: what follows a [return] is not executed. *)
Definition seq {R A B} (s : M (flow R A)) (k : A -> M (flow R B))
  : M (flow R B) :=
  bind s (fun f => match f with
                   | Return r => ret (Return r)
                   | Value a => k a
                   end).

(** Running a function body whose last statement yields the result. *)
Definition call {R} (body : M (flow R R)) : M R :=
  bind body (fun f => match f with
                      | Return r => ret r
                      | Value r => ret r
                      end).

End Machine.
Export Machine.

Notation "x <- c ;; k" := (bind c (fun x => k))
  (at level 20, c at level 99, k at level 200, only parsing).
Notation "' p <- c ;; k" := (bind c (fun x => match x with p => k end))
  (at level 20, p pattern, c at level 99, k at level 200, only parsing).

(** ** Payload classes

    The templates are generic in [Ok] and [Err].  What the header uses of a
    payload class is its size and alignment, brace construction from an
    argument pack, its move constructor, and its destructor; clients also
    copy payloads and compare them.  An object is its object representation
    (the bytes in its storage); what it owns on the free store is reached
    through those bytes. *)

Record Class : Type := {
  sizeof : nat;
  alignof : nat;
  (** the argument packs [T{args...}] accepts *)
  ctor_args : Type;
  (** [T{args...}]: the new object *)
  construct : ctor_args -> heap -> list Z * heap;
  (** [T{std::move(src)}]: the new object and what is left of the source *)
  move_construct : list Z -> heap -> (list Z * list Z) * heap;
  (** [T{src}] *)
  copy_construct : list Z -> heap -> list Z * heap;
  (** [~T()] *)
  destroy : list Z -> heap -> heap;
  (** what [operator==] compares *)
  cvalue : Type;
  observe : heap -> list Z -> cvalue;
}.

(** The contract of a movable payload class: objects fill their storage,
    a move hands the value over, and a moved-from object owns nothing more,
    so that destroying it leaves the store alone. *)
Record Movable (C : Class) : Prop := {
  construct_size : forall args h,
    length (construct C args h).1 = sizeof C;
  move_size : forall src h,
    length src = sizeof C ->
    length (move_construct C src h).1.1 = sizeof C /\
    length (move_construct C src h).1.2 = sizeof C;
  move_value : forall src h,
    length src = sizeof C ->
    observe C (move_construct C src h).2 (move_construct C src h).1.1
    = observe C h src;
  move_residue : forall src h h',
    length src = sizeof C ->
    destroy C (move_construct C src h).1.2 h' = h';
}.

(** An object invariant of a payload class: what it takes, in a given
    store, for bytes to be an object of the class within its lifetime.  The
    constructors produce such objects, and a move leaves both the new object
    and the moved-from one within their lifetime. *)
Record Respects (C : Class) (alive : heap -> list Z -> Prop) : Prop := {
  construct_alive : forall args h,
    alive (construct C args h).2 (construct C args h).1;
  move_alive : forall src h,
    length src = sizeof C -> alive h src ->
    alive (move_construct C src h).2 (move_construct C src h).1.1 /\
    alive (move_construct C src h).2 (move_construct C src h).1.2;
}.

(** ** Raw storage *)

Module Storage.

(** [new (&buffer) T{...}]: the object occupies the front of the
    buffer, the remaining bytes keep whatever they held. *)
Definition place (obj buffer : list Z) : list Z :=
  obj ++ drop (length obj) buffer.

(** [*reinterpret_cast<T*>(&buffer)]: the first [sizeof(T)] bytes. *)
Definition object_at (C : Class) (buffer : list Z) : list Z :=
  take (sizeof C) buffer.

(** Storage of [n] bytes that nothing has initialised: it holds whatever
    was there before ([stale]), zero where nothing was. *)
Definition uninitialized (n : nat) (stale : list Z) : list Z :=
  take n (stale ++ replicate n 0).

(** [sizeof(std::aligned_storage<Len, Align>::type)]: [Len] bytes padded
    to the next multiple of [Align], as the library lays the type out. *)
Definition aligned_storage (Len Align : nat) : nat :=
  match Align with
  | O => Len
  | S _ => (Align * ((Len + Align - 1) / Align))%nat
  end.
Arguments aligned_storage : simpl never.

End Storage.
Export Storage.

(** ** The full form: [template <class Ok, class Err> class Result] *)

Module Full.

Record Result : Type := {
  m_is_ok : bool;
  m_memory_buffer : list Z;
}.

Section Members.
Variables Ok Err : Class.

Definition ALIGNMENT : nat := Nat.max (alignof Ok) (alignof Err).
Definition BUFFER_SIZE : nat := Nat.max (sizeof Ok) (sizeof Err).

(** [Result() = default;] (private): [m_is_ok] takes its default member
    initialiser [false]; the buffer, a
    [std::aligned_storage<BUFFER_SIZE, ALIGNMENT>::type], is left as it
    is. *)
Definition default_init (stale : list Z) : Result :=
  {| m_is_ok := false;
     m_memory_buffer :=
       uninitialized (aligned_storage BUFFER_SIZE ALIGNMENT) stale |}.

(** [Result(Ok val)] *)
Definition from_Ok (stale : list Z) (val : list Z) : M Result :=
  let this := default_init stale in
  ' (obj, val') <- step (move_construct Ok val) ;;
  let this := {| m_is_ok := m_is_ok this;
                 m_memory_buffer := place obj (m_memory_buffer this) |} in
  let this := {| m_is_ok := true;
                 m_memory_buffer := m_memory_buffer this |} in
  (* the by-value parameter dies when the call is over *)
  _ <- effect (destroy Ok val') ;;
  ret this.

(** [Result(Err val)] *)
Definition from_Err (stale : list Z) (val : list Z) : M Result :=
  let this := default_init stale in
  ' (obj, val') <- step (move_construct Err val) ;;
  let this := {| m_is_ok := m_is_ok this;
                 m_memory_buffer := place obj (m_memory_buffer this) |} in
  let this := {| m_is_ok := false;
                 m_memory_buffer := m_memory_buffer this |} in
  _ <- effect (destroy Err val') ;;
  ret this.

(** [static Result ok(Args... args)]; [return result;] hands over the
    named local itself (the copy is elided). *)
Definition ok (stale : list Z) (args : ctor_args Ok) : M Result :=
  let result := default_init stale in
  obj <- step (construct Ok args) ;;
  let result := {| m_is_ok := m_is_ok result;
                   m_memory_buffer := place obj (m_memory_buffer result) |} in
  let result := {| m_is_ok := true;
                   m_memory_buffer := m_memory_buffer result |} in
  ret result.

(** [static Result error(Args... args)] *)
Definition error (stale : list Z) (args : ctor_args Err) : M Result :=
  let result := default_init stale in
  obj <- step (construct Err args) ;;
  let result := {| m_is_ok := m_is_ok result;
                   m_memory_buffer := place obj (m_memory_buffer result) |} in
  let result := {| m_is_ok := false;
                   m_memory_buffer := m_memory_buffer result |} in
  ret result.

Definition is_error (r : Result) : bool := negb (m_is_ok r).
Definition is_ok (r : Result) : bool := m_is_ok r.

(** [Ok& ok_value() &]: the referent, as it currently is. *)
Definition ok_value_ref (r : Result) : Outcome (list Z) :=
  and_then (DITTO_VERIFY (m_is_ok r))
           (fun _ => Ret (object_at Ok (m_memory_buffer r))).

(** [Ok&& ok_value() &&]: the same referent, as an xvalue; the cast
    by itself moves nothing. *)
Definition ok_value_rvalue (r : Result) : Outcome (list Z) :=
  and_then (DITTO_VERIFY (m_is_ok r))
           (fun _ => Ret (object_at Ok (m_memory_buffer r))).

(** [Err& error_value() &] *)
Definition error_value_ref (r : Result) : Outcome (list Z) :=
  and_then (DITTO_VERIFY (negb (m_is_ok r)))
           (fun _ => Ret (object_at Err (m_memory_buffer r))).

(** [Err&& error_value() &&] *)
Definition error_value_rvalue (r : Result) : Outcome (list Z) :=
  and_then (DITTO_VERIFY (negb (m_is_ok r)))
           (fun _ => Ret (object_at Err (m_memory_buffer r))).

(** A write through a reference the accessors returned: it lands in
    the front of the buffer and nowhere else in the object. *)
Definition write_back (r : Result) (obj : list Z) : Result :=
  {| m_is_ok := m_is_ok r;
     m_memory_buffer := place obj (m_memory_buffer r) |}.

(** [~Result()] *)
Definition dtor (r : Result) : M unit :=
  if m_is_ok r
  then effect (destroy Ok (object_at Ok (m_memory_buffer r)))
  else effect (destroy Err (object_at Err (m_memory_buffer r))).

(** [Result(const Result&) = default;]: member by member; the buffer
    member is plain storage, so its bytes are copied as they are. *)
Definition copy_ctor (other : Result) : M Result :=
  ret {| m_is_ok := m_is_ok other;
         m_memory_buffer := m_memory_buffer other |}.

(** [Result(Result&&) = default;]: moving a [bool] and plain storage
    copies them; the source keeps its members. *)
Definition move_ctor (other : Result) : M (Result * Result) :=
  ret ({| m_is_ok := m_is_ok other;
          m_memory_buffer := m_memory_buffer other |}, other).

(** [Result& operator=(const Result&) = default;] *)
Definition copy_assign (this other : Result) : M Result :=
  ret {| m_is_ok := m_is_ok other;
         m_memory_buffer := m_memory_buffer other |}.

(** [Result& operator=(Result&&) = default;] *)
Definition move_assign (this other : Result) : M (Result * Result) :=
  ret ({| m_is_ok := m_is_ok other;
          m_memory_buffer := m_memory_buffer other |}, other).

(** Initialising a [Result] from an [Err&&], as [return] does with the
    xvalue an accessor gave: the by-value parameter of [Result(Err val)]
    is move-constructed from the referent, then the constructor runs.
    Yields the new object and what is left of the referent. *)
Definition from_Err_xvalue (stale : list Z) (e : list Z)
  : M (Result * list Z) :=
  ' (val, e') <- step (move_construct Err e) ;;
  r <- from_Err stale val ;;
  ret (r, e').

(** What the class maintains about its storage. *)
Definition sized (r : Result) : Prop :=
  length (m_memory_buffer r) = aligned_storage BUFFER_SIZE ALIGNMENT.

End Members.

End Full.

(** ** The Ok-only form: [template <class Ok> class Result<Ok, void>] *)

Module OkOnly.

Record Result : Type := {
  m_is_ok : bool;
  m_memory_buffer : list Z;
}.

Section Members.
Variable Ok : Class.

Definition ALIGNMENT : nat := alignof Ok.
Definition BUFFER_SIZE : nat := sizeof Ok.

(** [Result() = default;] reached by default-initialisation. *)
Definition default_init (stale : list Z) : Result :=
  {| m_is_ok := false;
     m_memory_buffer := uninitialized BUFFER_SIZE stale |}.

(** [Result{}]: the constructor is not user-provided, so the object is
    zero-initialised first. *)
Definition value_init : Result :=
  {| m_is_ok := false;
     m_memory_buffer := replicate BUFFER_SIZE 0 |}.

(** [Result(Ok val)] *)
Definition from_Ok (stale : list Z) (val : list Z) : M Result :=
  let this := default_init stale in
  ' (obj, val') <- step (move_construct Ok val) ;;
  let this := {| m_is_ok := m_is_ok this;
                 m_memory_buffer := place obj (m_memory_buffer this) |} in
  let this := {| m_is_ok := true;
                 m_memory_buffer := m_memory_buffer this |} in
  _ <- effect (destroy Ok val') ;;
  ret this.

(** [static Result ok(Args... args)] *)
Definition ok (args : ctor_args Ok) : M Result :=
  let result := value_init in
  obj <- step (construct Ok args) ;;
  let result := {| m_is_ok := m_is_ok result;
                   m_memory_buffer := place obj (m_memory_buffer result) |} in
  let result := {| m_is_ok := true;
                   m_memory_buffer := m_memory_buffer result |} in
  ret result.

(** [static Result error() { return Result{}; }] *)
Definition error : M Result := ret value_init.

Definition is_error (r : Result) : bool := negb (m_is_ok r).
Definition is_ok (r : Result) : bool := m_is_ok r.

(** [Ok& ok_value() &] *)
Definition ok_value_ref (r : Result) : Outcome (list Z) :=
  and_then (DITTO_VERIFY (m_is_ok r))
           (fun _ => Ret (object_at Ok (m_memory_buffer r))).

(** [Ok&& ok_value() &&] *)
Definition ok_value_rvalue (r : Result) : Outcome (list Z) :=
  and_then (DITTO_VERIFY (m_is_ok r))
           (fun _ => Ret (object_at Ok (m_memory_buffer r))).

(** [~Result()] *)
Definition dtor (r : Result) : M unit :=
  if m_is_ok r
  then effect (destroy Ok (object_at Ok (m_memory_buffer r)))
  else ret tt.

(** [Result(const Result&) = default;] *)
Definition copy_ctor (other : Result) : M Result :=
  ret {| m_is_ok := m_is_ok other;
         m_memory_buffer := m_memory_buffer other |}.

End Members.

End OkOnly.

(** ** The Err-only form: [template <class Err> class Result<void, Err>] *)

Module ErrOnly.

Record Result : Type := {
  m_is_ok : bool;
  m_memory_buffer : list Z;
}.

Section Members.
Variable Err : Class.

Definition ALIGNMENT : nat := alignof Err.
Definition BUFFER_SIZE : nat := sizeof Err.

(** [Result() = default;] *)
Definition default_init (stale : list Z) : Result :=
  {| m_is_ok := false;
     m_memory_buffer := uninitialized BUFFER_SIZE stale |}.

(** [Result(Err val)] *)
Definition from_Err (stale : list Z) (val : list Z) : M Result :=
  let this := default_init stale in
  ' (obj, val') <- step (move_construct Err val) ;;
  let this := {| m_is_ok := m_is_ok this;
                 m_memory_buffer := place obj (m_memory_buffer this) |} in
  let this := {| m_is_ok := false;
                 m_memory_buffer := m_memory_buffer this |} in
  _ <- effect (destroy Err val') ;;
  ret this.

(** [static Result ok()] *)
Definition ok (stale : list Z) : M Result :=
  let result := default_init stale in
  let result := {| m_is_ok := true;
                   m_memory_buffer := m_memory_buffer result |} in
  ret result.

(** [static Result error(Args... args)] *)
Definition error (stale : list Z) (args : ctor_args Err) : M Result :=
  let result := default_init stale in
  obj <- step (construct Err args) ;;
  let result := {| m_is_ok := m_is_ok result;
                   m_memory_buffer := place obj (m_memory_buffer result) |} in
  let result := {| m_is_ok := false;
                   m_memory_buffer := m_memory_buffer result |} in
  ret result.

Definition is_error (r : Result) : bool := negb (m_is_ok r).
Definition is_ok (r : Result) : bool := m_is_ok r.

(** [Err& error_value() &] *)
Definition error_value_ref (r : Result) : Outcome (list Z) :=
  and_then (DITTO_VERIFY (negb (m_is_ok r)))
           (fun _ => Ret (object_at Err (m_memory_buffer r))).

(** [Err&& error_value() &&] *)
Definition error_value_rvalue (r : Result) : Outcome (list Z) :=
  and_then (DITTO_VERIFY (negb (m_is_ok r)))
           (fun _ => Ret (object_at Err (m_memory_buffer r))).

(** [~Result()] *)
Definition dtor (r : Result) : M unit :=
  if negb (m_is_ok r)
  then effect (destroy Err (object_at Err (m_memory_buffer r)))
  else ret tt.

(** [Result(const Result&) = default;] *)
Definition copy_ctor (other : Result) : M Result :=
  ret {| m_is_ok := m_is_ok other;
         m_memory_buffer := m_memory_buffer other |}.

(** Initialising a [Result<void, Err>] from an [Err&&]: the by-value
    parameter of [Result(Err val)] is move-constructed from the referent,
    then the constructor runs. *)
Definition from_Err_xvalue (stale : list Z) (e : list Z)
  : M (Result * list Z) :=
  ' (val, e') <- step (move_construct Err e) ;;
  r <- from_Err stale val ;;
  ret (r, e').

End Members.

End ErrOnly.

(** ** The propagation macro *)

Section Propagation.
Variables Ok Err : Class.

(** The enclosing function's return type, and how its return object is
    initialised from the [Err&&] the macro returns: the object, and what
    the initialisation leaves of the referent. *)
Variable R : Type.
Variable return_from : list Z -> M (R * list Z).

(** [#define PROPAGATE(expression) ({ ... })].  The value of the statement
    expression is a temporary initialised from its last expression;
    [_result] goes out of scope on either way out. *)
Definition PROPAGATE (expression : M Full.Result) : M (flow R (list Z)) :=
  _result <- expression ;;
  if Full.is_error _result then
    e <- lift (Full.error_value_rvalue Err _result) ;;
    ' (r, e') <- return_from e ;;
    _ <- Full.dtor Ok Err (Full.write_back _result e') ;;
    ret (Return r)
  else
    v <- lift (Full.ok_value_rvalue Ok _result) ;;
    ' (tmp, v') <- step (move_construct Ok v) ;;
    _ <- Full.dtor Ok Err (Full.write_back _result v') ;;
    ret (Value tmp).

End Propagation.

(** ** Code on the caller's side of the accessors *)

Module Client.

(** A member function of a payload class, run on an object: what it
    leaves of the object, and its effect on the store. *)
Definition method : Type := list Z -> M (list Z).

Section Uses.
Variables Ok Err : Class.

(** [r.ok_value().m(...)] *)
Definition call_on_ok (m : method) (r : Full.Result) : M Full.Result :=
  x <- lift (Full.ok_value_ref Ok r) ;;
  x' <- m x ;;
  ret (Full.write_back r x').

(** [r.error_value().m(...)] *)
Definition call_on_error (m : method) (r : Full.Result) : M Full.Result :=
  x <- lift (Full.error_value_ref Err r) ;;
  x' <- m x ;;
  ret (Full.write_back r x').

(** [Ok x = std::move(r).ok_value();]: the new object and [r]
    afterwards. *)
Definition take_ok (r : Full.Result) : M (list Z * Full.Result) :=
  x <- lift (Full.ok_value_rvalue Ok r) ;;
  ' (obj, x') <- step (move_construct Ok x) ;;
  ret (obj, Full.write_back r x').

(** [Err x = std::move(r).error_value();] *)
Definition take_error (r : Full.Result) : M (list Z * Full.Result) :=
  x <- lift (Full.error_value_rvalue Err r) ;;
  ' (obj, x') <- step (move_construct Err x) ;;
  ret (obj, Full.write_back r x').

(** The operations a caller has on an existing [Result]. *)
Inductive operation : Type :=
| Query_is_ok
| Query_is_error
| Borrow_ok (m : method)
| Borrow_error (m : method)
| Consume_ok
| Consume_error.

(** The object after the operation. *)
Definition perform (op : operation) (r : Full.Result) : M Full.Result :=
  match op with
  | Query_is_ok => let _ := Full.is_ok r in ret r
  | Query_is_error => let _ := Full.is_error r in ret r
  | Borrow_ok m => call_on_ok m r
  | Borrow_error m => call_on_error m r
  | Consume_ok => ' (_, r') <- take_ok r ;; ret r'
  | Consume_error => ' (_, r') <- take_error r ;; ret r'
  end.

(** A whole lifetime of such operations, one after the other. *)
Fixpoint perform_all (ops : list operation) (r : Full.Result)
  : M Full.Result :=
  match ops with
  | [] => ret r
  | op :: rest => r' <- perform op r ;; perform_all rest r'
  end.

(** A member function that leaves an object of class [C] at its size. *)
Definition keeps_size (C : Class) (m : method) : Prop :=
  forall x h x' h',
    length x = sizeof C -> m x h = Ret (x', h') -> length x' = sizeof C.

(** An operation whose member function, if it has one, does so. *)
Definition fits (op : operation) : Prop :=
  match op with
  | Borrow_ok m => keeps_size Ok m
  | Borrow_error m => keeps_size Err m
  | _ => True
  end.

(** Which alternative the discriminant declares live. *)
Inductive alternative : Type := Ok_live | Err_live.

Definition live (r : Full.Result) (a : alternative) : bool :=
  match a with
  | Ok_live => Full.is_ok r
  | Err_live => Full.is_error r
  end.

End Uses.

End Client.

(** ** The life of a [Result]: how it comes to be and what it holds *)

Module Lifetime.

Section Life.
Variables Ok Err : Class.

(** The four ways in which a caller brings a full-form [Result] into
    being. *)
Inductive builder : Type :=
| Build_from_Ok (val : list Z)
| Build_from_Err (val : list Z)
| Build_ok (args : ctor_args Ok)
| Build_error (args : ctor_args Err).

Definition build (stale : list Z) (b : builder) : M Full.Result :=
  match b with
  | Build_from_Ok val => Full.from_Ok Ok Err stale val
  | Build_from_Err val => Full.from_Err Ok Err stale val
  | Build_ok args => Full.ok Ok Err stale args
  | Build_error args => Full.error Ok Err stale args
  end.

(** The alternative whose payload the builder constructs. *)
Definition built (b : builder) : Client.alternative :=
  match b with
  | Build_from_Ok _ | Build_ok _ => Client.Ok_live
  | Build_from_Err _ | Build_error _ => Client.Err_live
  end.

Variables alive_Ok alive_Err : heap -> list Z -> Prop.

(** What a builder is given: the implicit constructors take an object of
    the payload class within its lifetime. *)
Definition presentable (b : builder) (h : heap) : Prop :=
  match b with
  | Build_from_Ok val => length val = sizeof Ok /\ alive_Ok h val
  | Build_from_Err val => length val = sizeof Err /\ alive_Err h val
  | Build_ok _ | Build_error _ => True
  end.

(** An alternative is live in a [Result] when the discriminant names it and
    the front of the buffer is an object of its class within its
    lifetime. *)
Definition holds (r : Full.Result) (h : heap) (a : Client.alternative)
  : Prop :=
  match a with
  | Client.Ok_live =>
      Full.is_ok r = true /\
      alive_Ok h (object_at Ok (Full.m_memory_buffer r))
  | Client.Err_live =>
      Full.is_error r = true /\
      alive_Err h (object_at Err (Full.m_memory_buffer r))
  end.

(** A member function that does not end the life of the object it is
    called on. *)
Definition keeps_alive (alive : heap -> list Z -> Prop) (m : Client.method)
  : Prop :=
  forall x h x' h', alive h x -> m x h = Ret (x', h') -> alive h' x'.

(** An operation whose member function, if it has one, leaves the payload
    an object of its class. *)
Definition gentle (op : Client.operation) : Prop :=
  match op with
  | Client.Borrow_ok m => Client.keeps_size Ok m /\ keeps_alive alive_Ok m
  | Client.Borrow_error m => Client.keeps_size Err m /\ keeps_alive alive_Err m
  | _ => True
  end.

End Life.

End Lifetime.

(** ** Instantiating the template *)

Module Template.

(** The type arguments, as far as the header tells them apart. *)
Inductive type_name : Type :=
| Void
| Named (name : string).

Definition type_name_eqb (a b : type_name) : bool :=
  match a, b with
  | Void, Void => true
  | Named x, Named y => String.eqb x y
  | _, _ => false
  end.

(** [std::is_same_v<A, B>] *)
Definition is_same_v (a b : type_name) : bool := type_name_eqb a b.

Inductive form : Type := Primary | Ok_only | Err_only.

Inductive compiled : Type :=
| Accepted (f : form)
| Rejected (message : string).

(** [static_assert(condition, message);] in a class body. *)
Definition static_assert (condition : bool) (message : string)
           (rest : compiled) : compiled :=
  if condition then rest else Rejected message.

Definition same_types_message : string :=
  "Cannot create a result where the Ok type and Err types are the same".

(** The partial specialisations [Result<Ok, void>] and [Result<void, Err>]
    that match the arguments. *)
Definition matching (Ok Err : type_name) : list form :=
  (if is_same_v Err Void then [Ok_only] else []) ++
  (if is_same_v Ok Void then [Err_only] else []).

(** [Result<Ok, Err>]: the one matching specialisation if there is one,
    the primary template if there is none; neither of the two
    specialisations is more specialised than the other. *)
Definition instantiate (Ok Err : type_name) : compiled :=
  match matching Ok Err with
  | [] =>
      static_assert (negb (is_same_v Ok Err)) same_types_message
                    (Accepted Primary)
  | [Ok_only] =>
      static_assert (negb (is_same_v Ok Void)) same_types_message
                    (Accepted Ok_only)
  | [Err_only] =>
      static_assert (negb (is_same_v Err Void)) same_types_message
                    (Accepted Err_only)
  | _ => Rejected "ambiguous template instantiation"
  end.

End Template.

(** ** Payload classes to instantiate the templates with *)

Module Payloads.

(** Little-endian object representations. *)
Fixpoint le_bytes (n : nat) (z : Z) : list Z :=
  match n with
  | O => []
  | S n' => (z mod 256) :: le_bytes n' (z / 256)
  end.

Definition le_value (bytes : list Z) : Z :=
  foldr (fun b acc => b + 256 * acc) 0 bytes.

(** Two's complement reading of a 32-bit pattern. *)
Definition as_int32 (u : Z) : Z :=
  if u <? 2 ^ 31 then u else u - 2 ^ 32.

(** [int]: four bytes, trivially copyable; [int{}] is zero. *)
Definition int : Class :=
  {| sizeof := 4;
     alignof := 4;
     ctor_args := option Z;
     construct := fun a h => (le_bytes 4 (default 0 a), h);
     move_construct := fun src h => ((src, src), h);
     copy_construct := fun src h => (src, h);
     destroy := fun _ h => h;
     cvalue := Z;
     observe := fun _ obj => as_int32 (le_value obj) |}.

(** [x = v] on an [int]. *)
Definition int_assign (v : Z) : Client.method :=
  fun _ => ret (le_bytes 4 v).

(** The free address [new] hands out. *)
Definition next_free (h : heap) : Z :=
  1 + map_fold (fun a _ top => Z.max a top) 0 h.

(** A payload class that owns one [int] on the free store, the way a
    string or a vector owns its characters or elements:
<<
    struct Boxed {
      int* p;
      Boxed(int v) : p(new int{v}) {}
      Boxed(const Boxed& o) : p(o.p ? new int{*o.p} : nullptr) {}
      Boxed(Boxed&& o) : p(o.p) { o.p = nullptr; }
      ~Boxed() { delete p; }
      void set(int v) { *p = v; }
      bool operator==(const Boxed& o) const { return *p == *o.p; }
    };
>> *)
Definition Boxed : Class :=
  {| sizeof := 8;
     alignof := 8;
     ctor_args := Z;
     construct := fun v h =>
       let p := next_free h in (le_bytes 8 p, <[p := v]> h);
     move_construct := fun src h => ((src, le_bytes 8 0), h);
     copy_construct := fun src h =>
       match h !! le_value src with
       | Some v => let p := next_free h in (le_bytes 8 p, <[p := v]> h)
       | None => (le_bytes 8 0, h)
       end;
     destroy := fun obj h =>
       if le_value obj =? 0 then h else delete (le_value obj) h;
     cvalue := option Z;
     observe := fun h obj => h !! le_value obj |}.

(** [Boxed::set] *)
Definition Boxed_set (v : Z) : Client.method :=
  fun obj => _ <- effect (fun h => <[le_value obj := v]> h) ;; ret obj.

(** A [Boxed] within its lifetime: its pointer is null, as after a move, or
    points to an allocated cell.  On a store whose addresses no longer fit
    a pointer nothing is asked. *)
Definition Boxed_alive (h : heap) (obj : list Z) : Prop :=
  le_value obj = 0 \/ is_Some (h !! le_value obj) \/ 2 ^ 64 <= next_free h.

(** An [int] within its lifetime: four bytes, each a byte's value. *)
Definition int_alive (h : heap) (obj : list Z) : Prop :=
  length obj = 4%nat /\ Forall (fun b => 0 <= b < 256) obj.

(** [struct Triple { int a, b, c; }]: twelve bytes, aligned as an [int],
    trivially copyable. *)
Definition Triple : Class :=
  {| sizeof := 12;
     alignof := 4;
     ctor_args := Z * Z * Z;
     construct := fun abc h =>
       (le_bytes 4 abc.1.1 ++ le_bytes 4 abc.1.2 ++ le_bytes 4 abc.2, h);
     move_construct := fun src h => ((src, src), h);
     copy_construct := fun src h => (src, h);
     destroy := fun _ h => h;
     cvalue := Z * Z * Z;
     observe := fun _ obj =>
       (as_int32 (le_value (take 4 obj)),
        as_int32 (le_value (take 4 (drop 4 obj))),
        as_int32 (le_value (take 4 (drop 8 obj)))) |}.

(** Modelled from the spec: the error type of the end-to-end scenario,
    [enum class DivideError { DivideByZero }]; the sources do not contain
    it. *)
Inductive DivideError_value : Type := DivideByZero.

Definition DivideError : Class :=
  {| sizeof := 4;
     alignof := 4;
     ctor_args := DivideError_value;
     construct := fun a h => (match a with DivideByZero => le_bytes 4 0 end, h);
     move_construct := fun src h => ((src, src), h);
     copy_construct := fun src h => (src, h);
     destroy := fun _ h => h;
     cvalue := Z;
     observe := fun _ obj => le_value obj |}.

(** Modelled from the spec: "a function [divide(a: int, b: int) ->
    Result<int, DivideError>] returns [Result.ok(a/b)] when [b != 0] and
    [Result.error(DivideByZero)] when [b == 0]"; the sources do not
    contain it. *)
Definition divide (a b : Z) : M Full.Result :=
  if b =? 0
  then Full.error int DivideError [] DivideByZero
  else Full.ok int DivideError [] (Some (Z.quot a b)).

(** A static counter at address [100], bumped by the statement that
    follows the macro in [quotient_and_count] below. *)
Definition counter : Z := 100.

Definition bump : M unit :=
  effect (fun h => <[counter := default 0 (h !! counter) + 1]> h).

(** Modelled from the spec: "a caller using the propagation helper on
    [divide(10, 0)]":
<<
    Result<int, DivideError> quotient_and_count(int a, int b) {
      int q = PROPAGATE(divide(a, b));
      ++counter;
      return q;
    }
>> *)
Definition quotient_and_count (a b : Z) : M Full.Result :=
  call (seq (PROPAGATE int DivideError Full.Result
                       (Full.from_Err_xvalue int DivideError [])
                       (divide a b))
            (fun q =>
               _ <- bump ;;
               r <- Full.from_Ok int DivideError [] q ;;
               ret (Value r))).

End Payloads.

(** * Properties *)

(** ** Raw storage *)

Section StorageFacts.

Lemma uninitialized_length n stale : length (uninitialized n stale) = n.
Proof.
  unfold uninitialized. rewrite length_take, length_app, length_replicate. lia.
Qed.

Lemma place_length obj buffer :
  (length obj <= length buffer)%nat ->
  length (place obj buffer) = length buffer.
Proof.
  intros Hle. unfold place. rewrite length_app, length_drop. lia.
Qed.

(** Reading back through the cast what placement put there. *)
Lemma object_at_place C obj buffer :
  length obj = sizeof C -> object_at C (place obj buffer) = obj.
Proof.
  intros Hlen. unfold object_at, place. by apply take_app_length'.
Qed.

(** The padded storage holds what it was asked to hold, is a multiple of
    the alignment, and pads by less than one alignment unit. *)
Lemma aligned_storage_ge Len Align : (Len <= aligned_storage Len Align)%nat.
Proof.
  unfold aligned_storage. destruct Align as [|a]; [done|].
  pose proof (Nat.div_mod_eq (Len + S a - 1) (S a)) as Hdiv.
  pose proof (Nat.mod_upper_bound (Len + S a - 1) (S a)) as Hmod.
  lia.
Qed.

Lemma aligned_storage_lt Len Align :
  (0 < Align)%nat -> (aligned_storage Len Align < Len + Align)%nat.
Proof.
  unfold aligned_storage. destruct Align as [|a]; [lia|]. intros _.
  pose proof (Nat.div_mod_eq (Len + S a - 1) (S a)) as Hdiv.
  lia.
Qed.

Lemma aligned_storage_multiple Len Align :
  (0 < Align)%nat -> Nat.divide Align (aligned_storage Len Align).
Proof.
  unfold aligned_storage. destruct Align as [|a]; [lia|]. intros _.
  eexists. apply Nat.mul_comm.
Qed.

Lemma object_at_length C buffer :
  (sizeof C <= length buffer)%nat -> length (object_at C buffer) = sizeof C.
Proof. intros Hle. unfold object_at. by apply length_take_le. Qed.

End StorageFacts.

(** ** The payload classes keep the contract *)

Section PayloadFacts.
Import Payloads.

Lemma le_bytes_length n z : length (le_bytes n z) = n.
Proof. revert z. induction n as [|n IH]; intros z; simpl; [done | by rewrite IH]. Qed.

Lemma int_movable : Movable int.
Proof.
  split; simpl.
  - done.
  - intros src h Hlen. by split.
  - done.
  - done.
Qed.

Lemma DivideError_movable : Movable DivideError.
Proof.
  split; simpl.
  - intros [] h. done.
  - intros src h Hlen. by split.
  - done.
  - done.
Qed.

Lemma Boxed_movable : Movable Boxed.
Proof.
  split; simpl.
  - done.
  - intros src h Hlen. by split.
  - done.
  - done.
Qed.

(** Decoding what was encoded, up to the width. *)
Lemma le_value_le_bytes n z : le_value (le_bytes n z) = z mod 256 ^ Z.of_nat n.
Proof.
  revert z. induction n as [|n IH]; intros z.
  - simpl. by rewrite Z.mod_1_r.
  - rewrite Nat2Z.inj_succ, Z.pow_succ_r by lia.
    rewrite Z.rem_mul_r by lia.
    change (le_value (le_bytes (S n) z))
      with (z mod 256 + 256 * le_value (le_bytes n (z / 256))).
    by rewrite IH.
Qed.

Lemma le_bytes_range n z : Forall (fun b => 0 <= b < 256) (le_bytes n z).
Proof.
  revert z. induction n as [|n IH]; intros z; simpl; constructor.
  - apply Z.mod_pos_bound. lia.
  - apply IH.
Qed.

(** The address [new] hands out lies above every address in use. *)
Lemma next_free_spec (h : heap) :
  0 < next_free h /\
  (forall a v, h !! a = Some v -> a < next_free h) /\
  (next_free h = 1 \/ is_Some (h !! (next_free h - 1))).
Proof.
  unfold next_free.
  apply (map_fold_weak_ind
           (fun top (m : heap) =>
              0 < 1 + top /\
              (forall a v, m !! a = Some v -> a < 1 + top) /\
              (1 + top = 1 \/ is_Some (m !! (1 + top - 1)))));
    clear h.
  - split; [lia|]. split; [|by left]. intros a v. by rewrite lookup_empty.
  - intros i x m top Hfresh (Hpos & Hbound & Htop).
    split; [lia|]. split.
    + intros a v. rewrite lookup_insert. case_decide as Hai.
      * intros _. lia.
      * intros Ha. specialize (Hbound a v Ha). lia.
    + destruct (Z.max_spec i top) as [[Hlt ->]|[Hle ->]].
      * destruct Htop as [Htop|Htop]; [by left|right].
        rewrite lookup_insert_ne by lia. done.
      * right. replace (1 + i - 1) with i by lia.
        rewrite lookup_insert_eq. by eexists.
Qed.

(** Writing a cell does not bring the next free address down. *)
Lemma next_free_insert (h : heap) a v :
  next_free h <= next_free (<[a := v]> h).
Proof.
  destruct (next_free_spec h) as (_ & _ & [Hone|[w Hw]]).
  - destruct (next_free_spec (<[a := v]> h)) as (Hpos & _). lia.
  - destruct (next_free_spec (<[a := v]> h)) as (_ & Hbound & _).
    destruct (decide (a = next_free h - 1)) as [->|Hne].
    + specialize (Hbound (next_free h - 1) v).
      rewrite lookup_insert_eq in Hbound. specialize (Hbound eq_refl). lia.
    + specialize (Hbound (next_free h - 1) w).
      rewrite lookup_insert_ne in Hbound by done. specialize (Hbound Hw). lia.
Qed.

Lemma int_respects : Respects int int_alive.
Proof.
  split.
  - intros args h. split; [done|]. apply (le_bytes_range 4).
  - intros src h _ Halive. by split.
Qed.

Lemma Boxed_respects : Respects Boxed Boxed_alive.
Proof.
  split.
  - intros v h. unfold Boxed_alive.
    change (construct Boxed v h).1 with (le_bytes 8 (next_free h)).
    change (construct Boxed v h).2 with (<[next_free h := v]> h).
    destruct (decide (next_free h < 2 ^ 64)) as [Hfit|Hfull].
    + right; left. rewrite le_value_le_bytes.
      destruct (next_free_spec h) as (Hpos & _).
      rewrite Z.mod_small by (simpl; lia).
      rewrite lookup_insert_eq. by eexists.
    + right; right. etrans; [|apply next_free_insert]. lia.
  - intros src h _ Halive. split; [done|]. by left.
Qed.

Lemma Boxed_set_keeps_alive (v : Z) :
  Lifetime.keeps_alive Boxed_alive (Boxed_set v).
Proof.
  intros x h x' h'. unfold Boxed_set, bind, effect, ret, Boxed_alive.
  intros Halive [= <- <-].
  destruct Halive as [Hnull|[[w Hw]|Hfull]].
  - by left.
  - right; left. rewrite lookup_insert_eq. by eexists.
  - right; right. pose proof (next_free_insert h (le_value x) v). lia.
Qed.

End PayloadFacts.

(** ** Construction from a bare value *)

Section Construction.
Variables Ok Err : Class.
Hypothesis Ok_movable : Movable Ok.
Hypothesis Err_movable : Movable Err.

Lemma BUFFER_SIZE_fits_Ok :
  (sizeof Ok <= aligned_storage (Full.BUFFER_SIZE Ok Err)
                                (Full.ALIGNMENT Ok Err))%nat.
Proof.
  etrans; [|apply aligned_storage_ge]. unfold Full.BUFFER_SIZE. lia.
Qed.

Lemma BUFFER_SIZE_fits_Err :
  (sizeof Err <= aligned_storage (Full.BUFFER_SIZE Ok Err)
                                 (Full.ALIGNMENT Ok Err))%nat.
Proof.
  etrans; [|apply aligned_storage_ge]. unfold Full.BUFFER_SIZE. lia.
Qed.

Lemma from_Ok_spec stale v h :
  length v = sizeof Ok ->
  exists r h',
    Full.from_Ok Ok Err stale v h = Ret (r, h') /\
    Full.m_is_ok r = true /\
    Full.sized Ok Err r /\
    length (object_at Ok (Full.m_memory_buffer r)) = sizeof Ok /\
    observe Ok h' (object_at Ok (Full.m_memory_buffer r)) = observe Ok h v.
Proof.
  intros Hlen.
  pose proof (move_size Ok Ok_movable v h Hlen) as [Hobj _].
  pose proof (move_value Ok Ok_movable v h Hlen) as Hval.
  pose proof (move_residue Ok Ok_movable v h) as Hres.
  unfold Full.from_Ok, bind, step, effect, ret.
  destruct (move_construct Ok v h) as [[obj val'] h1] eqn:Hmove.
  simpl in *. eexists _, _. split; [reflexivity|]. simpl.
  rewrite (Hres h1 Hlen), (object_at_place Ok obj _ Hobj).
  repeat split; try done.
  unfold Full.sized. simpl. rewrite place_length; rewrite uninitialized_length.
  - done.
  - rewrite Hobj. apply BUFFER_SIZE_fits_Ok.
Qed.

Lemma from_Err_spec stale e h :
  length e = sizeof Err ->
  exists r h',
    Full.from_Err Ok Err stale e h = Ret (r, h') /\
    Full.m_is_ok r = false /\
    Full.sized Ok Err r /\
    length (object_at Err (Full.m_memory_buffer r)) = sizeof Err /\
    observe Err h' (object_at Err (Full.m_memory_buffer r)) = observe Err h e.
Proof.
  intros Hlen.
  pose proof (move_size Err Err_movable e h Hlen) as [Hobj _].
  pose proof (move_value Err Err_movable e h Hlen) as Hval.
  pose proof (move_residue Err Err_movable e h) as Hres.
  unfold Full.from_Err, bind, step, effect, ret.
  destruct (move_construct Err e h) as [[obj val'] h1] eqn:Hmove.
  simpl in *. eexists _, _. split; [reflexivity|]. simpl.
  rewrite (Hres h1 Hlen), (object_at_place Err obj _ Hobj).
  repeat split; try done.
  unfold Full.sized. simpl. rewrite place_length; rewrite uninitialized_length.
  - done.
  - rewrite Hobj. apply BUFFER_SIZE_fits_Err.
Qed.

End Construction.

(** C1.  Implicit construction of the full form from a bare value: from a
    value [v] of type [Ok] the result has [is_ok() == true] and
    [ok_value() == v]; from a value [e] of type [Err] it has
    [is_error() == true] and [error_value() == e]. *)
Theorem implicit_construction_roundtrip
  (Ok Err : Class) (Ok_movable : Movable Ok) (Err_movable : Movable Err)
  (stale v e : list Z) (h : heap)
  (Hv : length v = sizeof Ok) (He : length e = sizeof Err) :
  (exists r h' x,
     Full.from_Ok Ok Err stale v h = Ret (r, h') /\
     Full.is_ok r = true /\
     Full.ok_value_ref Ok r = Ret x /\
     observe Ok h' x = observe Ok h v) /\
  (exists r h' x,
     Full.from_Err Ok Err stale e h = Ret (r, h') /\
     Full.is_error r = true /\
     Full.error_value_ref Err r = Ret x /\
     observe Err h' x = observe Err h e).
Proof.
  split.
  - destruct (from_Ok_spec Ok Err Ok_movable stale v h Hv)
      as (r & h' & Hrun & Hflag & _ & _ & Hobs).
    exists r, h', (object_at Ok (Full.m_memory_buffer r)).
    unfold Full.is_ok, Full.ok_value_ref. rewrite Hflag. by simpl.
  - destruct (from_Err_spec Ok Err Err_movable stale e h He)
      as (r & h' & Hrun & Hflag & _ & _ & Hobs).
    exists r, h', (object_at Err (Full.m_memory_buffer r)).
    unfold Full.is_error, Full.error_value_ref. rewrite Hflag. by simpl.
Qed.

(** An instance of C1: [Result<Boxed, int>] built from a [Boxed] holding 7
    and from the [int] -5, over stale bytes. *)
Lemma implicit_construction_roundtrip_witness :
  Movable Payloads.Boxed /\ Movable Payloads.int /\
  length (Payloads.le_bytes 8 1) = sizeof Payloads.Boxed /\
  length (Payloads.le_bytes 4 (-5)) = sizeof Payloads.int /\
  (exists r h' x,
     Full.from_Ok Payloads.Boxed Payloads.int [9; 9; 9]
                  (Payloads.le_bytes 8 1) {[ 1 := 7 ]} = Ret (r, h') /\
     Full.is_ok r = true /\
     Full.ok_value_ref Payloads.Boxed r = Ret x /\
     observe Payloads.Boxed h' x
     = observe Payloads.Boxed {[ 1 := 7 ]} (Payloads.le_bytes 8 1)) /\
  (exists r h' x,
     Full.from_Err Payloads.Boxed Payloads.int [9; 9; 9]
                   (Payloads.le_bytes 4 (-5)) {[ 1 := 7 ]} = Ret (r, h') /\
     Full.is_error r = true /\
     Full.error_value_ref Payloads.int r = Ret x /\
     observe Payloads.int h' x
     = observe Payloads.int {[ 1 := 7 ]} (Payloads.le_bytes 4 (-5))).
Proof.
  split; [exact Boxed_movable|].
  split; [exact int_movable|].
  split; [reflexivity|].
  split; [reflexivity|].
  exact (implicit_construction_roundtrip
           Payloads.Boxed Payloads.int Boxed_movable int_movable
           [9; 9; 9] (Payloads.le_bytes 8 1) (Payloads.le_bytes 4 (-5))
           {[ 1 := 7 ]} eq_refl eq_refl).
Defined.

(** ** Access *)

(** C2.  [ok_value()] on a [Result] whose discriminant says error, and
    [error_value()] on one whose discriminant says ok, end in the fatal
    assertion instead of returning; when [is_ok()] holds the assertion in
    [ok_value()] passes and the payload is returned, and likewise for
    [error_value()] when [is_error()] holds. *)
Theorem wrong_alternative_access_is_fatal (Ok Err : Class) (r : Full.Result) :
  Full.ok_value_ref Ok r
  = (if Full.is_ok r
     then Ret (object_at Ok (Full.m_memory_buffer r)) else Abort) /\
  Full.ok_value_rvalue Ok r
  = (if Full.is_ok r
     then Ret (object_at Ok (Full.m_memory_buffer r)) else Abort) /\
  Full.error_value_ref Err r
  = (if Full.is_error r
     then Ret (object_at Err (Full.m_memory_buffer r)) else Abort) /\
  Full.error_value_rvalue Err r
  = (if Full.is_error r
     then Ret (object_at Err (Full.m_memory_buffer r)) else Abort) /\
  (Full.is_ok r = true -> DITTO_VERIFY (Full.m_is_ok r) = Ret tt) /\
  (Full.is_error r = true -> DITTO_VERIFY (negb (Full.m_is_ok r)) = Ret tt).
Proof.
  unfold Full.ok_value_ref, Full.ok_value_rvalue, Full.error_value_ref,
    Full.error_value_rvalue, Full.is_ok, Full.is_error.
  destruct (Full.m_is_ok r); simpl; repeat split; done.
Qed.

(** ** The named factories *)

(** C6.  [Result::ok(args...)] constructs the success payload in place from
    the forwarded arguments and yields a [Result] with [is_ok() == true];
    [Result::error(args...)] does the same for the failure payload and
    yields [is_error() == true].  The argument pack may be empty. *)
Theorem named_factories
  (Ok Err : Class) (Ok_movable : Movable Ok) (Err_movable : Movable Err)
  (stale : list Z) (a : ctor_args Ok) (b : ctor_args Err) (h : heap) :
  (exists r,
     Full.ok Ok Err stale a h = Ret (r, (construct Ok a h).2) /\
     Full.is_ok r = true /\
     Full.ok_value_ref Ok r = Ret (construct Ok a h).1) /\
  (exists r,
     Full.error Ok Err stale b h = Ret (r, (construct Err b h).2) /\
     Full.is_error r = true /\
     Full.error_value_ref Err r = Ret (construct Err b h).1).
Proof.
  pose proof (construct_size Ok Ok_movable a h) as Ha.
  pose proof (construct_size Err Err_movable b h) as Hb.
  unfold Full.ok, Full.error, bind, step, ret.
  destruct (construct Ok a h) as [x h1], (construct Err b h) as [y h2].
  simpl in *. split; eexists; (split; [reflexivity|]).
  - unfold Full.is_ok, Full.ok_value_ref. simpl.
    by rewrite object_at_place.
  - unfold Full.is_error, Full.error_value_ref. simpl.
    by rewrite object_at_place.
Qed.

(** An instance of C6: [Result<int, Boxed>::ok()] with no argument, and
    [Result<int, Boxed>::error(7)]. *)
Lemma named_factories_witness :
  Movable Payloads.int /\ Movable Payloads.Boxed /\
  (exists r,
     Full.ok Payloads.int Payloads.Boxed [] None ∅ = Ret (r, ∅) /\
     Full.is_ok r = true /\
     Full.ok_value_ref Payloads.int r = Ret [0; 0; 0; 0]) /\
  (exists r,
     Full.error Payloads.int Payloads.Boxed [] 7 ∅ = Ret (r, {[ 1 := 7 ]}) /\
     Full.is_error r = true /\
     Full.error_value_ref Payloads.Boxed r = Ret [1; 0; 0; 0; 0; 0; 0; 0]).
Proof.
  split; [exact int_movable|].
  split; [exact Boxed_movable|].
  exact (named_factories Payloads.int Payloads.Boxed int_movable Boxed_movable
                         [] None 7 ∅).
Defined.

(** Where the copy in [return result;] is not elided, the return object is
    move-constructed from the local and the local is destroyed; the
    discriminant that comes back is the same. *)
Lemma factory_discriminant_without_elision
  (Ok Err : Class) (stale : list Z) (a : ctor_args Ok) (b : ctor_args Err)
  (h : heap) :
  (exists out h',
     (result <- Full.ok Ok Err stale a ;;
      ' (out, result') <- Full.move_ctor result ;;
      _ <- Full.dtor Ok Err result' ;;
      ret out) h = Ret (out, h') /\
     Full.is_ok out = true) /\
  (exists out h',
     (result <- Full.error Ok Err stale b ;;
      ' (out, result') <- Full.move_ctor result ;;
      _ <- Full.dtor Ok Err result' ;;
      ret out) h = Ret (out, h') /\
     Full.is_error out = true).
Proof.
  unfold Full.ok, Full.error, Full.move_ctor, Full.dtor, bind, step, effect, ret.
  destruct (construct Ok a h) as [x h1], (construct Err b h) as [y h2].
  simpl. split; eexists _, _; split; reflexivity.
Qed.

(** The factories of the one-sided forms that do take arguments. *)
Lemma one_sided_factories_with_payload
  (C : Class) (C_movable : Movable C) (stale : list Z) (a : ctor_args C)
  (h : heap) :
  (exists r,
     OkOnly.ok C a h = Ret (r, (construct C a h).2) /\
     OkOnly.is_ok r = true /\
     OkOnly.ok_value_ref C r = Ret (construct C a h).1) /\
  (exists r,
     ErrOnly.error C stale a h = Ret (r, (construct C a h).2) /\
     ErrOnly.is_error r = true /\
     ErrOnly.error_value_ref C r = Ret (construct C a h).1).
Proof.
  pose proof (construct_size C C_movable a h) as Ha.
  unfold OkOnly.ok, ErrOnly.error, bind, step, ret.
  destruct (construct C a h) as [x h1].
  simpl in *. split; eexists; (split; [reflexivity|]).
  - unfold OkOnly.is_ok, OkOnly.ok_value_ref. simpl.
    by rewrite object_at_place.
  - unfold ErrOnly.is_error, ErrOnly.error_value_ref. simpl.
    by rewrite object_at_place.
Qed.

(** C7.  In the Ok-only form [error()] takes no argument and yields a
    [Result] with [is_error() == true] that holds no payload: nothing was
    constructed, the form's only accessors end in the assertion, and its
    destructor has nothing to destroy.  In the Err-only form [ok()] takes
    no argument and yields [is_ok() == true], likewise without payload. *)
Theorem payload_free_factories (Ok Err : Class) (stale : list Z) (h : heap) :
  (exists r,
     OkOnly.error Ok h = Ret (r, h) /\
     OkOnly.is_error r = true /\
     OkOnly.ok_value_ref Ok r = Abort /\
     OkOnly.ok_value_rvalue Ok r = Abort /\
     OkOnly.dtor Ok r h = Ret (tt, h)) /\
  (exists r,
     ErrOnly.ok Err stale h = Ret (r, h) /\
     ErrOnly.is_ok r = true /\
     ErrOnly.error_value_ref Err r = Abort /\
     ErrOnly.error_value_rvalue Err r = Abort /\
     ErrOnly.dtor Err r h = Ret (tt, h)).
Proof.
  split; eexists; (split; [reflexivity|]); repeat split.
Qed.

(** ** The discriminant *)

(** C9.  [is_ok()] and [is_error()] always come back, leave the [Result]
    and the store as they were, and answer with complementary booleans. *)
Theorem queries_are_complementary
  (Ok Err : Class) (r : Full.Result) (h : heap) :
  Full.is_error r = negb (Full.is_ok r) /\
  Client.perform Ok Err Client.Query_is_ok r h = Ret (r, h) /\
  Client.perform Ok Err Client.Query_is_error r h = Ret (r, h) /\
  (forall r1 : OkOnly.Result, OkOnly.is_error r1 = negb (OkOnly.is_ok r1)) /\
  (forall r2 : ErrOnly.Result, ErrOnly.is_error r2 = negb (ErrOnly.is_ok r2)).
Proof. repeat split. Qed.

(** Writing through a payload reference does not reach the discriminant. *)
Lemma write_back_keeps_discriminant (r : Full.Result) (obj : list Z) :
  Full.m_is_ok (Full.write_back r obj) = Full.m_is_ok r.
Proof. reflexivity. Qed.

(** What moving the success payload out amounts to. *)
Lemma take_ok_unfold (Ok : Class) (r : Full.Result) (h : heap) :
  Client.take_ok Ok r h
  = if Full.m_is_ok r
    then Ret (((move_construct Ok (object_at Ok (Full.m_memory_buffer r)) h).1.1,
               Full.write_back r
                 (move_construct Ok (object_at Ok (Full.m_memory_buffer r)) h).1.2),
              (move_construct Ok (object_at Ok (Full.m_memory_buffer r)) h).2)
    else Abort.
Proof.
  unfold Client.take_ok, Full.ok_value_rvalue, bind, lift, step, ret.
  destruct (Full.m_is_ok r); simpl; [|done].
  by destruct (move_construct Ok _ h) as [[obj x'] h'].
Qed.

Lemma take_error_unfold (Err : Class) (r : Full.Result) (h : heap) :
  Client.take_error Err r h
  = if Full.m_is_ok r
    then Abort
    else Ret (((move_construct Err (object_at Err (Full.m_memory_buffer r)) h).1.1,
               Full.write_back r
                 (move_construct Err (object_at Err (Full.m_memory_buffer r)) h).1.2),
              (move_construct Err (object_at Err (Full.m_memory_buffer r)) h).2).
Proof.
  unfold Client.take_error, Full.error_value_rvalue, bind, lift, step, ret.
  destruct (Full.m_is_ok r); simpl; [done|].
  by destruct (move_construct Err _ h) as [[obj x'] h'].
Qed.

(** One caller-side operation leaves the discriminant alone. *)
Lemma perform_keeps_discriminant
  (Ok Err : Class) (op : Client.operation) (r r' : Full.Result) (h h' : heap) :
  Client.perform Ok Err op r h = Ret (r', h') ->
  Full.m_is_ok r' = Full.m_is_ok r.
Proof.
  destruct op as [| |m|m| |]; simpl.
  - unfold ret. by intros [= <- _].
  - unfold ret. by intros [= <- _].
  - unfold Client.call_on_ok, Full.ok_value_ref, bind, lift, ret.
    destruct (Full.m_is_ok r) eqn:Hflag; simpl; [|done].
    destruct (m _ h) as [|[x' h1]]; [done|].
    intros [= <- _]. by rewrite write_back_keeps_discriminant.
  - unfold Client.call_on_error, Full.error_value_ref, bind, lift, ret.
    destruct (Full.m_is_ok r) eqn:Hflag; simpl; [done|].
    destruct (m _ h) as [|[x' h1]]; [done|].
    intros [= <- _]. by rewrite write_back_keeps_discriminant.
  - unfold bind at 1. rewrite take_ok_unfold.
    destruct (Full.m_is_ok r) eqn:Hflag; [|done].
    unfold ret. intros [= <- _]. by rewrite write_back_keeps_discriminant.
  - unfold bind at 1. rewrite take_error_unfold.
    destruct (Full.m_is_ok r) eqn:Hflag; [done|].
    unfold ret. intros [= <- _]. by rewrite write_back_keeps_discriminant.
Qed.

(** C10.  The consuming accessors move the live payload out and leave the
    discriminant of the source as it was: [is_ok()] and [is_error()] answer
    after the access what they answered before it. *)
Theorem consuming_access_keeps_discriminant
  (Ok Err : Class) (r : Full.Result) (h : heap) :
  match Client.take_ok Ok r h with
  | Ret ((obj, r'), h') =>
      Full.is_ok r = true /\
      ((obj, Full.m_memory_buffer r'), h')
      = (let '((new, rest), h1) :=
           move_construct Ok (object_at Ok (Full.m_memory_buffer r)) h in
         ((new, place rest (Full.m_memory_buffer r)), h1)) /\
      Full.is_ok r' = Full.is_ok r /\
      Full.is_error r' = Full.is_error r
  | Abort => Full.is_ok r = false
  end /\
  match Client.take_error Err r h with
  | Ret ((obj, r'), h') =>
      Full.is_error r = true /\
      ((obj, Full.m_memory_buffer r'), h')
      = (let '((new, rest), h1) :=
           move_construct Err (object_at Err (Full.m_memory_buffer r)) h in
         ((new, place rest (Full.m_memory_buffer r)), h1)) /\
      Full.is_ok r' = Full.is_ok r /\
      Full.is_error r' = Full.is_error r
  | Abort => Full.is_error r = false
  end.
Proof.
  rewrite take_ok_unfold, take_error_unfold.
  unfold Full.is_ok, Full.is_error.
  destruct (Full.m_is_ok r) eqn:Hflag; simpl; rewrite ?Hflag; split; try done.
  - by destruct (move_construct Ok _ h) as [[new rest] h1].
  - by destruct (move_construct Err _ h) as [[new rest] h1].
Qed.

(** The discriminant names exactly one alternative, and which one does not
    change under the operations a caller has on a [Result]: the queries,
    the borrowing accessors with whatever is done through the reference,
    and the consuming accessors. *)
Lemma discriminant_unchanged_by_operations
  (Ok Err : Class) (ops : list Client.operation) (r : Full.Result) (h : heap) :
  (exists! a, Client.live r a = true) /\
  match Client.perform_all Ok Err ops r h with
  | Ret (r', h') =>
      Full.m_is_ok r' = Full.m_is_ok r /\
      (forall a, Client.live r' a = Client.live r a) /\
      (exists! a, Client.live r' a = true)
  | Abort => True
  end.
Proof.
  assert (Hone : forall x : Full.Result, exists! a, Client.live x a = true).
  { intros x. unfold Client.live, Full.is_ok, Full.is_error.
    destruct (Full.m_is_ok x).
    - exists Client.Ok_live. split; [done|]. by intros [].
    - exists Client.Err_live. split; [done|]. by intros []. }
  split; [apply Hone|].
  revert r h. induction ops as [|op ops IH]; intros r h; simpl.
  - unfold ret. auto.
  - unfold bind.
    destruct (Client.perform Ok Err op r h) as [|[r1 h1]] eqn:Hop; [done|].
    apply perform_keeps_discriminant in Hop.
    specialize (IH r1 h1).
    destruct (Client.perform_all Ok Err ops r1 h1) as [|[r' h']]; [done|].
    destruct IH as (Hflag & Hlive & _).
    split; [congruence|]. split; [|apply Hone].
    intros a. rewrite Hlive. unfold Client.live, Full.is_ok, Full.is_error.
    by rewrite Hop.
Qed.

(** Assignment is not among those operations: it replaces the whole object,
    discriminant included, by the right-hand side's. *)
Remark copy_assign_takes_discriminant
  (this other : Full.Result) (h : heap) :
  exists r, Full.copy_assign this other h = Ret (r, h) /\
            Full.m_is_ok r = Full.m_is_ok other.
Proof. by eexists. Qed.

(** ** Instantiation *)

Lemma type_name_eqb_refl (T : Template.type_name) :
  Template.type_name_eqb T T = true.
Proof. destruct T as [|name]; simpl; [done|]. apply String.eqb_refl. Qed.

(** C8.  The full form with identical [Ok] and [Err] types does not compile:
    for every type [T], [Result<T, T>] is rejected; wherever the primary
    template is the one selected, it is its [static_assert] that rejects. *)
Theorem identical_types_rejected (T : Template.type_name) :
  (forall f, Template.instantiate T T <> Template.Accepted f) /\
  match T with
  | Template.Named _ =>
      Template.matching T T = [] /\
      Template.instantiate T T = Template.Rejected Template.same_types_message
  | Template.Void =>
      Template.matching T T = [Template.Ok_only; Template.Err_only]
  end.
Proof.
  destruct T as [|name].
  - split; [by intros f|done].
  - assert (Hrej : Template.instantiate (Template.Named name) (Template.Named name)
                   = Template.Rejected Template.same_types_message).
    { unfold Template.instantiate, Template.matching, Template.is_same_v.
      simpl. unfold Template.static_assert, Template.is_same_v.
      change (String.eqb name name)
        with (Template.type_name_eqb (Template.Named name) (Template.Named name)).
      by rewrite type_name_eqb_refl. }
    split; [|by split].
    intros f. by rewrite Hrej.
Qed.

(** Distinct payload types are accepted, so the rejection above is the
    assertion's doing. *)
Lemma distinct_types_accepted (a b : string) :
  a <> b ->
  Template.instantiate (Template.Named a) (Template.Named b)
  = Template.Accepted Template.Primary.
Proof.
  intros Hne. unfold Template.instantiate, Template.matching. simpl.
  unfold Template.static_assert, Template.is_same_v. simpl.
  apply String.eqb_neq in Hne. by rewrite Hne.
Qed.

(** ** Propagation *)

Section PropagationFacts.
Variables Ok Err X : Class.
Hypothesis Ok_movable : Movable Ok.
Hypothesis Err_movable : Movable Err.

(** Returning an [Err&&] from a function whose return type is
    [Result<X, Err>]. *)
Lemma from_Err_xvalue_spec stale e h :
  length e = sizeof Err ->
  exists out h',
    Full.from_Err_xvalue X Err stale e h
    = Ret ((out, (move_construct Err e h).1.2), h') /\
    Full.m_is_ok out = false /\
    length (object_at Err (Full.m_memory_buffer out)) = sizeof Err /\
    observe Err h' (object_at Err (Full.m_memory_buffer out)) = observe Err h e.
Proof.
  intros Hlen.
  pose proof (move_size Err Err_movable e h Hlen) as [Hval _].
  pose proof (move_value Err Err_movable e h Hlen) as Hobs.
  unfold Full.from_Err_xvalue, bind at 1, step.
  destruct (move_construct Err e h) as [[val e'] h1] eqn:Hmove. simpl in *.
  destruct (from_Err_spec X Err Err_movable stale val h1 Hval)
    as (out & h2 & Hrun & Hflag & _ & Hsize & Hobs').
  exists out, h2. unfold bind, ret. rewrite Hrun.
  repeat split; try done. congruence.
Qed.

(** The destructor of a [Result] whose live payload has been moved from
    does nothing to the store. *)
Lemma dtor_after_move_out_ok r h h' :
  Full.sized Ok Err r -> Full.m_is_ok r = true ->
  Full.dtor Ok Err
    (Full.write_back r
       (move_construct Ok (object_at Ok (Full.m_memory_buffer r)) h).1.2) h'
  = Ret (tt, h').
Proof.
  intros Hsized Hflag. unfold Full.dtor, effect. simpl. rewrite Hflag.
  assert (Hlen : length (object_at Ok (Full.m_memory_buffer r)) = sizeof Ok).
  { apply object_at_length. rewrite Hsized. apply BUFFER_SIZE_fits_Ok. }
  pose proof (move_size Ok Ok_movable _ h Hlen) as [_ Hrest].
  rewrite object_at_place by done.
  by rewrite (move_residue Ok Ok_movable _ h h' Hlen).
Qed.

Lemma dtor_after_move_out_error r h h' :
  Full.sized Ok Err r -> Full.m_is_ok r = false ->
  Full.dtor Ok Err
    (Full.write_back r
       (move_construct Err (object_at Err (Full.m_memory_buffer r)) h).1.2) h'
  = Ret (tt, h').
Proof.
  intros Hsized Hflag. unfold Full.dtor, effect. simpl. rewrite Hflag.
  assert (Hlen : length (object_at Err (Full.m_memory_buffer r)) = sizeof Err).
  { apply object_at_length. rewrite Hsized. apply BUFFER_SIZE_fits_Err. }
  pose proof (move_size Err Err_movable _ h Hlen) as [_ Hrest].
  rewrite object_at_place by done.
  by rewrite (move_residue Err Err_movable _ h h' Hlen).
Qed.

(** The macro on a failure. *)
Lemma PROPAGATE_failure stale r h :
  Full.sized Ok Err r -> Full.m_is_ok r = false ->
  exists out h',
    PROPAGATE Ok Err Full.Result (Full.from_Err_xvalue X Err stale) (ret r) h
    = Ret (Return out, h') /\
    Full.m_is_ok out = false /\
    observe Err h' (object_at Err (Full.m_memory_buffer out))
    = observe Err h (object_at Err (Full.m_memory_buffer r)).
Proof.
  intros Hsized Hflag.
  assert (Hlen : length (object_at Err (Full.m_memory_buffer r)) = sizeof Err).
  { apply object_at_length. rewrite Hsized. apply BUFFER_SIZE_fits_Err. }
  destruct (from_Err_xvalue_spec stale _ h Hlen)
    as (out & h' & Hret & Hout & _ & Hobs).
  exists out, h'.
  unfold PROPAGATE, bind, ret, lift, Full.is_error, Full.error_value_rvalue.
  rewrite Hflag. simpl. rewrite Hret.
  rewrite (dtor_after_move_out_error r h h' Hsized Hflag). done.
Qed.

(** The macro on a success. *)
Lemma PROPAGATE_success (R : Type) (return_from : list Z -> M (R * list Z)) r h :
  Full.sized Ok Err r -> Full.m_is_ok r = true ->
  exists tmp h',
    PROPAGATE Ok Err R return_from (ret r) h = Ret (Value tmp, h') /\
    observe Ok h' tmp = observe Ok h (object_at Ok (Full.m_memory_buffer r)).
Proof.
  intros Hsized Hflag.
  assert (Hlen : length (object_at Ok (Full.m_memory_buffer r)) = sizeof Ok).
  { apply object_at_length. rewrite Hsized. apply BUFFER_SIZE_fits_Ok. }
  pose proof (move_value Ok Ok_movable _ h Hlen) as Hobs.
  pose proof (dtor_after_move_out_ok r h) as Hdtor.
  unfold PROPAGATE, bind, ret, lift, step, Full.is_error, Full.ok_value_rvalue.
  rewrite Hflag. simpl.
  destruct (move_construct Ok _ h) as [[tmp v'] h1]. simpl in *.
  rewrite (Hdtor h1 Hsized Hflag). by exists tmp, h1.
Qed.

End PropagationFacts.

(** C4.  [PROPAGATE(expression)] evaluates the expression once.  If the
    [Result] it produced is a failure, the enclosing function returns at
    once, whatever statements follow, and what it returns is a [Result] of
    its own with the same failure payload; otherwise the macro has the
    success payload as its value and the following statements go on with
    it. *)
Theorem propagate_short_circuits
  (Ok Err X : Class) (Ok_movable : Movable Ok) (Err_movable : Movable Err)
  (stale : list Z) (expression : M Full.Result)
  (h h1 : heap) (r : Full.Result)
  (Hrun : expression h = Ret (r, h1)) (Hsized : Full.sized Ok Err r) :
  let macro :=
    PROPAGATE Ok Err Full.Result (Full.from_Err_xvalue X Err stale) in
  macro expression h = macro (ret r) h1 /\
  if Full.is_error r then
    exists out h2 x,
      (forall (B : Type) (rest : list Z -> M (flow Full.Result B)),
         seq (macro expression) rest h = Ret (Return out, h2)) /\
      (forall rest : list Z -> M (flow Full.Result Full.Result),
         call (seq (macro expression) rest) h = Ret (out, h2)) /\
      Full.is_error out = true /\
      Full.error_value_ref Err out = Ret x /\
      observe Err h2 x = observe Err h1 (object_at Err (Full.m_memory_buffer r))
  else
    exists tmp h2,
      (forall (B : Type) (rest : list Z -> M (flow Full.Result B)),
         seq (macro expression) rest h = rest tmp h2) /\
      observe Ok h2 tmp = observe Ok h1 (object_at Ok (Full.m_memory_buffer r)).
Proof.
  intros macro.
  assert (Honce : macro expression h = macro (ret r) h1).
  { unfold macro, PROPAGATE, bind at 1. rewrite Hrun. reflexivity. }
  split; [exact Honce|].
  unfold Full.is_error. destruct (Full.m_is_ok r) eqn:Hflag; simpl.
  - destruct (PROPAGATE_success Ok Err Ok_movable Full.Result
                (Full.from_Err_xvalue X Err stale) r h1 Hsized Hflag)
      as (tmp & h2 & Hmacro & Hobs).
    exists tmp, h2. split; [|exact Hobs].
    intros B rest. unfold seq, bind at 1. rewrite Honce.
    fold macro in Hmacro. by rewrite Hmacro.
  - destruct (PROPAGATE_failure Ok Err X Err_movable stale r h1 Hsized Hflag)
      as (out & h2 & Hmacro & Hout & Hobs).
    fold macro in Hmacro.
    exists out, h2, (object_at Err (Full.m_memory_buffer out)).
    repeat split.
    + intros B rest. unfold seq, bind at 1. rewrite Honce. by rewrite Hmacro.
    + intros rest. unfold call, seq, bind. rewrite Honce. by rewrite Hmacro.
    + unfold Full.is_error. by rewrite Hout.
    + unfold Full.error_value_ref. by rewrite Hout.
    + exact Hobs.
Qed.

(** An instance of C4, the end-to-end scenario: [PROPAGATE(divide(10, 0))]
    in a function returning [Result<int, DivideError>]. *)
Lemma propagate_short_circuits_witness :
  Movable Payloads.int /\ Movable Payloads.DivideError /\
  Payloads.divide 10 0 ∅
  = Ret ({| Full.m_is_ok := false; Full.m_memory_buffer := [0; 0; 0; 0] |}, ∅) /\
  Full.sized Payloads.int Payloads.DivideError
    {| Full.m_is_ok := false; Full.m_memory_buffer := [0; 0; 0; 0] |} /\
  exists out h2 x,
    (forall (B : Type) (rest : list Z -> M (flow Full.Result B)),
       seq (PROPAGATE Payloads.int Payloads.DivideError Full.Result
              (Full.from_Err_xvalue Payloads.int Payloads.DivideError [])
              (Payloads.divide 10 0)) rest ∅
       = Ret (Return out, h2)) /\
    (forall rest : list Z -> M (flow Full.Result Full.Result),
       call (seq (PROPAGATE Payloads.int Payloads.DivideError Full.Result
                    (Full.from_Err_xvalue Payloads.int Payloads.DivideError [])
                    (Payloads.divide 10 0)) rest) ∅
       = Ret (out, h2)) /\
    Full.is_error out = true /\
    Full.error_value_ref Payloads.DivideError out = Ret x /\
    observe Payloads.DivideError h2 x = 0.
Proof.
  split; [exact int_movable|].
  split; [exact DivideError_movable|].
  split; [reflexivity|].
  split; [reflexivity|].
  exact (proj2 (propagate_short_circuits
                  Payloads.int Payloads.DivideError Payloads.int
                  int_movable DivideError_movable [] (Payloads.divide 10 0)
                  ∅ ∅
                  {| Full.m_is_ok := false;
                     Full.m_memory_buffer := [0; 0; 0; 0] |}
                  eq_refl eq_refl)).
Defined.

(** The scenario run: on [divide(10, 0)] the caller returns [DivideByZero]
    and the statement after the macro has not run; on [divide(10, 3)] it
    has, once, and the caller returns 3. *)
Example quotient_and_count_runs :
  (exists out h',
     Payloads.quotient_and_count 10 0 ∅ = Ret (out, h') /\
     Full.is_error out = true /\
     Full.error_value_ref Payloads.DivideError out
     = Ret (construct Payloads.DivideError Payloads.DivideByZero ∅).1 /\
     h' !! Payloads.counter = None) /\
  (exists out h',
     Payloads.quotient_and_count 10 3 ∅ = Ret (out, h') /\
     Full.is_ok out = true /\
     Full.ok_value_ref Payloads.int out = Ret (Payloads.le_bytes 4 3) /\
     h' !! Payloads.counter = Some 1).
Proof. split; eexists _, _; vm_compute; repeat split. Qed.

(** An expression with a visible effect is seen to have run once. *)
Example propagate_evaluates_once :
  exists v h',
    PROPAGATE Payloads.int Payloads.DivideError Full.Result
      (Full.from_Err_xvalue Payloads.int Payloads.DivideError [])
      (_ <- Payloads.bump ;; Payloads.divide 10 3) ∅
    = Ret (Value v, h') /\
    h' !! Payloads.counter = Some 1.
Proof. eexists _, _. vm_compute. split; reflexivity. Qed.

(** ** Copies *)

(** The defaulted special members hand on the same discriminant and the
    same bytes and do not touch the store: no member function of the
    payload runs, and the source of a move is left as it was. *)
Lemma defaulted_members_are_bytewise (this r : Full.Result) (h : heap) :
  Full.copy_ctor r h = Ret (r, h) /\
  Full.move_ctor r h = Ret ((r, r), h) /\
  Full.copy_assign this r h = Ret (r, h) /\
  Full.move_assign this r h = Ret ((r, r), h).
Proof. by destruct r. Qed.

(** For a payload whose value is all in its own bytes, that is enough:
    whatever is done to the copy's payload, the original reads as before. *)
Lemma copy_of_plain_payload_is_independent
  (Ok : Class) (m : Client.method) (r c' : Full.Result) (h h' : heap) :
  (forall h1 h2 obj, observe Ok h1 obj = observe Ok h2 obj) ->
  (c <- Full.copy_ctor r ;; Client.call_on_ok Ok m c) h = Ret (c', h') ->
  observe Ok h' (object_at Ok (Full.m_memory_buffer r))
  = observe Ok h (object_at Ok (Full.m_memory_buffer r)).
Proof. intros Hplain _. apply Hplain. Qed.

(** C3.  Copying a [Result] is claimed to run the live payload's own copy
    operation, so that the copy shares nothing with the original.  The
    defaulted members copy the buffer's bytes instead.  With
    [Result<Boxed, int> r = Result<Boxed, int>::ok(7)], after
    [auto c = r; c.ok_value().set(9);] the original's payload reads 9, and
    after [auto c = r;] and the end of [c]'s life the original's payload is
    gone; [Boxed]'s own copy constructor would have made a second cell. *)
Theorem defaulted_copy_shares_payload :
  let original := Full.ok Payloads.Boxed Payloads.int [] 7 in
  let r := {| Full.m_is_ok := true;
              Full.m_memory_buffer := Payloads.le_bytes 8 1 |} in
  original ∅ = Ret (r, {[ 1 := 7 ]}) /\
  Full.ok_value_ref Payloads.Boxed r = Ret (Payloads.le_bytes 8 1) /\
  observe Payloads.Boxed {[ 1 := 7 ]} (Payloads.le_bytes 8 1) = Some 7 /\
  (r <- original ;;
   c <- Full.copy_ctor r ;;
   c' <- Client.call_on_ok Payloads.Boxed (Payloads.Boxed_set 9) c ;;
   ret (r, c')) ∅ = Ret ((r, r), {[ 1 := 9 ]}) /\
  observe Payloads.Boxed {[ 1 := 9 ]} (Payloads.le_bytes 8 1) = Some 9 /\
  (r <- original ;;
   c <- Full.copy_ctor r ;;
   _ <- Full.dtor Payloads.Boxed Payloads.int c ;;
   ret r) ∅ = Ret (r, ∅) /\
  observe Payloads.Boxed ∅ (Payloads.le_bytes 8 1) = None /\
  copy_construct Payloads.Boxed (Payloads.le_bytes 8 1) {[ 1 := 7 ]}
  = (Payloads.le_bytes 8 2, <[ 2 := 7 ]> {[ 1 := 7 ]}).
Proof.
  intros original r. subst original r.
  repeat split; vm_compute; reflexivity.
Qed.

(** The one-sided forms guard their accessor the same way. *)
Lemma one_sided_access_is_guarded
  (C : Class) (r1 : OkOnly.Result) (r2 : ErrOnly.Result) :
  OkOnly.ok_value_ref C r1
  = (if OkOnly.is_ok r1
     then Ret (object_at C (OkOnly.m_memory_buffer r1)) else Abort) /\
  OkOnly.ok_value_rvalue C r1 = OkOnly.ok_value_ref C r1 /\
  ErrOnly.error_value_ref C r2
  = (if ErrOnly.is_error r2
     then Ret (object_at C (ErrOnly.m_memory_buffer r2)) else Abort) /\
  ErrOnly.error_value_rvalue C r2 = ErrOnly.error_value_ref C r2.
Proof.
  unfold OkOnly.ok_value_ref, OkOnly.ok_value_rvalue, OkOnly.is_ok,
    ErrOnly.error_value_ref, ErrOnly.error_value_rvalue, ErrOnly.is_error.
  destruct (OkOnly.m_is_ok r1), (ErrOnly.m_is_ok r2); by repeat split.
Qed.

(** * Further properties of the header *)

(** ** The storage *)

(** X1.  The storage member of the full form suits either payload: it is
    at least as large as each, a multiple of [ALIGNMENT] and less than
    [ALIGNMENT] bytes larger than the larger payload, and [ALIGNMENT],
    alignments being powers of two, is a multiple of either payload's
    alignment. *)
Theorem storage_suits_either_payload
  (Ok Err : Class) (i j : nat)
  (Hi : alignof Ok = (2 ^ i)%nat) (Hj : alignof Err = (2 ^ j)%nat) :
  let storage :=
    aligned_storage (Full.BUFFER_SIZE Ok Err) (Full.ALIGNMENT Ok Err) in
  (forall stale,
     length (Full.m_memory_buffer (Full.default_init Ok Err stale)) = storage) /\
  (sizeof Ok <= storage)%nat /\
  (sizeof Err <= storage)%nat /\
  (storage < Nat.max (sizeof Ok) (sizeof Err) + Full.ALIGNMENT Ok Err)%nat /\
  Nat.divide (Full.ALIGNMENT Ok Err) storage /\
  Nat.divide (alignof Ok) (Full.ALIGNMENT Ok Err) /\
  Nat.divide (alignof Err) (Full.ALIGNMENT Ok Err).
Proof.
  assert (Hpow : forall a b : nat, (a <= b)%nat -> Nat.divide (2 ^ a) (2 ^ b)).
  { intros a b Hab. exists (2 ^ (b - a))%nat.
    rewrite <- Nat.pow_add_r. f_equal. lia. }
  assert (Hpos : (0 < Full.ALIGNMENT Ok Err)%nat).
  { unfold Full.ALIGNMENT. rewrite Hi.
    pose proof (Nat.pow_nonzero 2 i). lia. }
  intros storage. subst storage.
  split; [intros stale; apply uninitialized_length|].
  split; [apply BUFFER_SIZE_fits_Ok|]. split; [apply BUFFER_SIZE_fits_Err|].
  split; [by apply aligned_storage_lt|].
  split; [by apply aligned_storage_multiple|].
  unfold Full.ALIGNMENT. rewrite Hi, Hj.
  destruct (Nat.le_ge_cases i j) as [Hle|Hle].
  - rewrite Nat.max_r by (by apply Nat.pow_le_mono_r).
    split; by apply Hpow.
  - rewrite Nat.max_l by (by apply Nat.pow_le_mono_r).
    split; by apply Hpow.
Qed.

(** An instance of X1: [Result<Triple, Boxed>], sizes 12 and 8, alignments
    4 and 8, storage of 16 bytes. *)
Lemma storage_suits_either_payload_witness :
  alignof Payloads.Triple = (2 ^ 2)%nat /\
  alignof Payloads.Boxed = (2 ^ 3)%nat /\
  (forall stale,
     length (Full.m_memory_buffer
               (Full.default_init Payloads.Triple Payloads.Boxed stale))
     = 16%nat) /\
  (sizeof Payloads.Triple <= 16)%nat /\
  (sizeof Payloads.Boxed <= 16)%nat /\
  (16 < Nat.max (sizeof Payloads.Triple) (sizeof Payloads.Boxed)
        + Full.ALIGNMENT Payloads.Triple Payloads.Boxed)%nat /\
  Nat.divide (Full.ALIGNMENT Payloads.Triple Payloads.Boxed) 16 /\
  Nat.divide (alignof Payloads.Triple)
             (Full.ALIGNMENT Payloads.Triple Payloads.Boxed) /\
  Nat.divide (alignof Payloads.Boxed)
             (Full.ALIGNMENT Payloads.Triple Payloads.Boxed).
Proof.
  split; [reflexivity|]. split; [reflexivity|].
  exact (storage_suits_either_payload Payloads.Triple Payloads.Boxed 2 3
                                      eq_refl eq_refl).
Defined.

(** ** Access through the references *)

Section AccessFacts.
Variables Ok Err : Class.
Hypothesis Ok_movable : Movable Ok.
Hypothesis Err_movable : Movable Err.

Lemma write_back_sized r obj :
  Full.sized Ok Err r ->
  (length obj <= aligned_storage (Full.BUFFER_SIZE Ok Err)
                                 (Full.ALIGNMENT Ok Err))%nat ->
  Full.sized Ok Err (Full.write_back r obj).
Proof.
  unfold Full.sized. intros Hsized Hle. simpl.
  rewrite place_length; [done|]. by rewrite Hsized.
Qed.

Lemma payload_size_Ok r :
  Full.sized Ok Err r ->
  length (object_at Ok (Full.m_memory_buffer r)) = sizeof Ok.
Proof.
  intros Hsized. apply object_at_length. rewrite Hsized.
  apply BUFFER_SIZE_fits_Ok.
Qed.

Lemma payload_size_Err r :
  Full.sized Ok Err r ->
  length (object_at Err (Full.m_memory_buffer r)) = sizeof Err.
Proof.
  intros Hsized. apply object_at_length. rewrite Hsized.
  apply BUFFER_SIZE_fits_Err.
Qed.

(** One operation keeps the buffer at its size. *)
Lemma perform_keeps_size op r r' h h' :
  Client.fits Ok Err op ->
  Full.sized Ok Err r ->
  Client.perform Ok Err op r h = Ret (r', h') ->
  Full.sized Ok Err r'.
Proof.
  intros Hfits Hsized.
  pose proof (payload_size_Ok r Hsized) as HlenOk.
  pose proof (payload_size_Err r Hsized) as HlenErr.
  pose proof (BUFFER_SIZE_fits_Ok Ok Err) as HfitOk.
  pose proof (BUFFER_SIZE_fits_Err Ok Err) as HfitErr.
  destruct op as [| |m|m| |]; simpl in *.
  - unfold ret. by intros [= <- _].
  - unfold ret. by intros [= <- _].
  - unfold Client.call_on_ok, Full.ok_value_ref, bind, lift, ret.
    destruct (Full.m_is_ok r); simpl; [|done].
    destruct (m _ h) as [|[x' h1]] eqn:Hm; [done|].
    intros [= <- _]. apply write_back_sized; [done|].
    by rewrite (Hfits _ _ _ _ HlenOk Hm).
  - unfold Client.call_on_error, Full.error_value_ref, bind, lift, ret.
    destruct (Full.m_is_ok r); simpl; [done|].
    destruct (m _ h) as [|[x' h1]] eqn:Hm; [done|].
    intros [= <- _]. apply write_back_sized; [done|].
    by rewrite (Hfits _ _ _ _ HlenErr Hm).
  - unfold bind at 1. rewrite take_ok_unfold.
    destruct (Full.m_is_ok r); [|done].
    unfold ret. intros [= <- _]. apply write_back_sized; [done|].
    destruct (move_size Ok Ok_movable _ h HlenOk) as [_ ->]. done.
  - unfold bind at 1. rewrite take_error_unfold.
    destruct (Full.m_is_ok r); [done|].
    unfold ret. intros [= <- _]. apply write_back_sized; [done|].
    destruct (move_size Err Err_movable _ h HlenErr) as [_ ->]. done.
Qed.

End AccessFacts.

Lemma int_assign_keeps_size (v : Z) :
  Client.keeps_size Payloads.int (Payloads.int_assign v).
Proof.
  intros x h x' h' _. unfold Payloads.int_assign, ret. by intros [= <- _].
Qed.

Lemma Boxed_set_keeps_size (v : Z) :
  Client.keeps_size Payloads.Boxed (Payloads.Boxed_set v).
Proof.
  intros x h x' h' Hlen. unfold Payloads.Boxed_set, bind, effect, ret.
  by intros [= <- _].
Qed.

(** X4.  What a member function called through [ok_value()] leaves of the
    payload is what the next [ok_value()] reads, the discriminant is still
    ok, and the bytes of the buffer behind the payload are as before; the
    same through [error_value()]. *)
Theorem borrowed_write_is_read_back
  (Ok Err : Class) (m n : Client.method) (r s : Full.Result)
  (x' y' : list Z) (h hx hy : heap)
  (Hr : Full.is_ok r = true)
  (Hm : m (object_at Ok (Full.m_memory_buffer r)) h = Ret (x', hx))
  (Hx : length x' = sizeof Ok)
  (Hs : Full.is_error s = true)
  (Hn : n (object_at Err (Full.m_memory_buffer s)) h = Ret (y', hy))
  (Hy : length y' = sizeof Err) :
  (exists r',
     Client.call_on_ok Ok m r h = Ret (r', hx) /\
     Full.is_ok r' = true /\
     Full.ok_value_ref Ok r' = Ret x' /\
     drop (sizeof Ok) (Full.m_memory_buffer r')
     = drop (sizeof Ok) (Full.m_memory_buffer r)) /\
  (exists s',
     Client.call_on_error Err n s h = Ret (s', hy) /\
     Full.is_error s' = true /\
     Full.error_value_ref Err s' = Ret y' /\
     drop (sizeof Err) (Full.m_memory_buffer s')
     = drop (sizeof Err) (Full.m_memory_buffer s)).
Proof.
  unfold Full.is_ok, Full.is_error in *. apply negb_true_iff in Hs. split.
  - exists (Full.write_back r x').
    unfold Client.call_on_ok, Full.ok_value_ref, bind, lift, ret. simpl.
    rewrite Hr. simpl. rewrite Hm. rewrite object_at_place by done.
    repeat split. unfold place. by rewrite drop_app_length', Hx.
  - exists (Full.write_back s y').
    unfold Client.call_on_error, Full.error_value_ref, bind, lift, ret. simpl.
    rewrite Hs. simpl. rewrite Hn. rewrite object_at_place by done.
    repeat split. unfold place. by rewrite drop_app_length', Hy.
Qed.

(** An instance of X4: on [Result<int, Boxed>], [r.ok_value() = 6] where
    [r] holds 5 in front of stale bytes, and [s.error_value().set(8)] where
    [s] holds a [Boxed] of 7. *)
Lemma borrowed_write_is_read_back_witness :
  (exists r',
     Client.call_on_ok Payloads.int (Payloads.int_assign 6)
       {| Full.m_is_ok := true;
        Full.m_memory_buffer := [5; 0; 0; 0; 9; 9; 9; 9] |} {[ 1 := 7 ]}
     = Ret (r', {[ 1 := 7 ]}) /\
     Full.is_ok r' = true /\
     Full.ok_value_ref Payloads.int r' = Ret (Payloads.le_bytes 4 6) /\
     drop (sizeof Payloads.int) (Full.m_memory_buffer r') = [9; 9; 9; 9]) /\
  (exists s',
     Client.call_on_error Payloads.Boxed (Payloads.Boxed_set 8)
       {| Full.m_is_ok := false;
        Full.m_memory_buffer := Payloads.le_bytes 8 1 |} {[ 1 := 7 ]}
     = Ret (s', {[ 1 := 8 ]}) /\
     Full.is_error s' = true /\
     Full.error_value_ref Payloads.Boxed s' = Ret (Payloads.le_bytes 8 1) /\
     drop (sizeof Payloads.Boxed) (Full.m_memory_buffer s') = []).
Proof.
  refine (borrowed_write_is_read_back Payloads.int Payloads.Boxed
            (Payloads.int_assign 6) (Payloads.Boxed_set 8)
            {| Full.m_is_ok := true;
        Full.m_memory_buffer := [5; 0; 0; 0; 9; 9; 9; 9] |}
            {| Full.m_is_ok := false;
        Full.m_memory_buffer := Payloads.le_bytes 8 1 |}
            (Payloads.le_bytes 4 6) (Payloads.le_bytes 8 1)
            {[ 1 := 7 ]} {[ 1 := 7 ]} {[ 1 := 8 ]}
            eq_refl eq_refl eq_refl eq_refl _ eq_refl).
  vm_compute. reflexivity.
Defined.

(** ** Destruction *)

(** X5.  The destructor runs the destructor of the live payload, on the very
    object the factory constructed, and nothing else: a [Result] made by
    [ok(args...)] and then destroyed leaves the store as constructing and
    destroying a bare [Ok] would, one made by [error(args...)] as a bare
    [Err] would; so do the one-sided forms. *)
Theorem destructor_destroys_live_payload
  (Ok Err : Class) (Ok_movable : Movable Ok) (Err_movable : Movable Err)
  (stale : list Z) (a : ctor_args Ok) (b : ctor_args Err) (h : heap) :
  (r <- Full.ok Ok Err stale a ;; Full.dtor Ok Err r) h
  = Ret (tt, destroy Ok (construct Ok a h).1 (construct Ok a h).2) /\
  (r <- Full.error Ok Err stale b ;; Full.dtor Ok Err r) h
  = Ret (tt, destroy Err (construct Err b h).1 (construct Err b h).2) /\
  (r <- OkOnly.ok Ok a ;; OkOnly.dtor Ok r) h
  = Ret (tt, destroy Ok (construct Ok a h).1 (construct Ok a h).2) /\
  (r <- ErrOnly.error Err stale b ;; ErrOnly.dtor Err r) h
  = Ret (tt, destroy Err (construct Err b h).1 (construct Err b h).2).
Proof.
  pose proof (construct_size Ok Ok_movable a h) as Ha.
  pose proof (construct_size Err Err_movable b h) as Hb.
  unfold Full.ok, Full.error, Full.dtor, OkOnly.ok, OkOnly.dtor,
    ErrOnly.error, ErrOnly.dtor, bind, step, effect, ret.
  destruct (construct Ok a h) as [x h1], (construct Err b h) as [y h2].
  simpl in *. by rewrite !object_at_place.
Qed.

(** An instance of X5: a [Result<Boxed, int>] and a [Result<Boxed, void>]
    holding a [Boxed] of 7, built on the empty store and destroyed, leave
    the store empty; with an [int] error nothing is on the store at all. *)
Lemma destructor_destroys_live_payload_witness :
  Movable Payloads.Boxed /\ Movable Payloads.int /\
  (r <- Full.ok Payloads.Boxed Payloads.int [] 7 ;;
   Full.dtor Payloads.Boxed Payloads.int r) ∅ = Ret (tt, ∅) /\
  (r <- Full.error Payloads.Boxed Payloads.int [] (Some 3) ;;
   Full.dtor Payloads.Boxed Payloads.int r) ∅ = Ret (tt, ∅) /\
  (r <- OkOnly.ok Payloads.Boxed 7 ;; OkOnly.dtor Payloads.Boxed r) ∅
  = Ret (tt, ∅) /\
  (r <- ErrOnly.error Payloads.int [] (Some 3) ;;
   ErrOnly.dtor Payloads.int r) ∅ = Ret (tt, ∅).
Proof.
  split; [exact Boxed_movable|]. split; [exact int_movable|].
  exact (destructor_destroys_live_payload Payloads.Boxed Payloads.int
           Boxed_movable int_movable [] 7 (Some 3) ∅).
Defined.

(** X10.  The defaulted copy and move constructors and assignment operators
    leave two [Result]s that both hold the one payload: when both are
    destroyed, the payload's destructor has run twice on the same object,
    and the payload an assignment overwrote has not been destroyed at
    all. *)
Theorem duplicate_is_destroyed_twice
  (Ok Err : Class) (this r : Full.Result) (h : heap) :
  let x := object_at Ok (Full.m_memory_buffer r) in
  let y := object_at Err (Full.m_memory_buffer r) in
  let twice := if Full.is_ok r
               then destroy Ok x (destroy Ok x h)
               else destroy Err y (destroy Err y h) in
  (c <- Full.copy_ctor r ;;
   _ <- Full.dtor Ok Err c ;; Full.dtor Ok Err r) h = Ret (tt, twice) /\
  (' (d, s) <- Full.move_ctor r ;;
   _ <- Full.dtor Ok Err d ;; Full.dtor Ok Err s) h = Ret (tt, twice) /\
  (c <- Full.copy_assign this r ;;
   _ <- Full.dtor Ok Err c ;; Full.dtor Ok Err r) h = Ret (tt, twice) /\
  (' (d, s) <- Full.move_assign this r ;;
   _ <- Full.dtor Ok Err d ;; Full.dtor Ok Err s) h = Ret (tt, twice).
Proof.
  unfold Full.copy_ctor, Full.move_ctor, Full.copy_assign, Full.move_assign,
    Full.dtor, Full.is_ok, bind, effect, ret.
  simpl. destruct (Full.m_is_ok r); by repeat split.
Qed.

(** ** The one-sided forms *)

Section OneSidedFacts.
Variable C : Class.
Hypothesis C_movable : Movable C.

Lemma OkOnly_from_Ok_spec stale v h :
  length v = sizeof C ->
  exists r h',
    OkOnly.from_Ok C stale v h = Ret (r, h') /\
    OkOnly.m_is_ok r = true /\
    length (OkOnly.m_memory_buffer r) = OkOnly.BUFFER_SIZE C /\
    observe C h' (object_at C (OkOnly.m_memory_buffer r)) = observe C h v.
Proof.
  intros Hlen.
  pose proof (move_size C C_movable v h Hlen) as [Hobj _].
  pose proof (move_value C C_movable v h Hlen) as Hval.
  pose proof (move_residue C C_movable v h) as Hres.
  unfold OkOnly.from_Ok, bind, step, effect, ret.
  destruct (move_construct C v h) as [[obj val'] h1] eqn:Hmove.
  simpl in *. eexists _, _. split; [reflexivity|]. simpl.
  rewrite (Hres h1 Hlen), (object_at_place C obj _ Hobj).
  repeat split; try done.
  rewrite place_length; rewrite uninitialized_length; [done|].
  by rewrite Hobj.
Qed.

Lemma ErrOnly_from_Err_spec stale e h :
  length e = sizeof C ->
  exists r h',
    ErrOnly.from_Err C stale e h = Ret (r, h') /\
    ErrOnly.m_is_ok r = false /\
    length (ErrOnly.m_memory_buffer r) = ErrOnly.BUFFER_SIZE C /\
    observe C h' (object_at C (ErrOnly.m_memory_buffer r)) = observe C h e.
Proof.
  intros Hlen.
  pose proof (move_size C C_movable e h Hlen) as [Hobj _].
  pose proof (move_value C C_movable e h Hlen) as Hval.
  pose proof (move_residue C C_movable e h) as Hres.
  unfold ErrOnly.from_Err, bind, step, effect, ret.
  destruct (move_construct C e h) as [[obj val'] h1] eqn:Hmove.
  simpl in *. eexists _, _. split; [reflexivity|]. simpl.
  rewrite (Hres h1 Hlen), (object_at_place C obj _ Hobj).
  repeat split; try done.
  rewrite place_length; rewrite uninitialized_length; [done|].
  by rewrite Hobj.
Qed.

End OneSidedFacts.

(** X6.  Implicit construction in the one-sided forms: [Result<Ok, void>]
    from a value [v] is ok and [ok_value()] equals [v], its buffer being
    exactly [sizeof(Ok)] bytes; [Result<void, Err>] from [e] is an error and
    [error_value()] equals [e]. *)
Theorem one_sided_implicit_construction
  (C : Class) (C_movable : Movable C) (stale v : list Z) (h : heap)
  (Hv : length v = sizeof C) :
  (exists r h' x,
     OkOnly.from_Ok C stale v h = Ret (r, h') /\
     OkOnly.is_ok r = true /\
     length (OkOnly.m_memory_buffer r) = sizeof C /\
     OkOnly.ok_value_ref C r = Ret x /\
     observe C h' x = observe C h v) /\
  (exists r h' x,
     ErrOnly.from_Err C stale v h = Ret (r, h') /\
     ErrOnly.is_error r = true /\
     length (ErrOnly.m_memory_buffer r) = sizeof C /\
     ErrOnly.error_value_ref C r = Ret x /\
     observe C h' x = observe C h v).
Proof.
  split.
  - destruct (OkOnly_from_Ok_spec C C_movable stale v h Hv)
      as (r & h' & Hrun & Hflag & Hsize & Hobs).
    exists r, h', (object_at C (OkOnly.m_memory_buffer r)).
    unfold OkOnly.is_ok, OkOnly.ok_value_ref. rewrite Hflag. by simpl.
  - destruct (ErrOnly_from_Err_spec C C_movable stale v h Hv)
      as (r & h' & Hrun & Hflag & Hsize & Hobs).
    exists r, h', (object_at C (ErrOnly.m_memory_buffer r)).
    unfold ErrOnly.is_error, ErrOnly.error_value_ref. rewrite Hflag. by simpl.
Qed.

(** An instance of X6: both one-sided forms over [Boxed], from a [Boxed]
    holding 7. *)
Lemma one_sided_implicit_construction_witness :
  Movable Payloads.Boxed /\
  length (Payloads.le_bytes 8 1) = sizeof Payloads.Boxed /\
  (exists r h' x,
     OkOnly.from_Ok Payloads.Boxed [9; 9] (Payloads.le_bytes 8 1) {[ 1 := 7 ]}
     = Ret (r, h') /\
     OkOnly.is_ok r = true /\
     length (OkOnly.m_memory_buffer r) = sizeof Payloads.Boxed /\
     OkOnly.ok_value_ref Payloads.Boxed r = Ret x /\
     observe Payloads.Boxed h' x = Some 7) /\
  (exists r h' x,
     ErrOnly.from_Err Payloads.Boxed [9; 9] (Payloads.le_bytes 8 1) {[ 1 := 7 ]}
     = Ret (r, h') /\
     ErrOnly.is_error r = true /\
     length (ErrOnly.m_memory_buffer r) = sizeof Payloads.Boxed /\
     ErrOnly.error_value_ref Payloads.Boxed r = Ret x /\
     observe Payloads.Boxed h' x = Some 7).
Proof.
  split; [exact Boxed_movable|]. split; [reflexivity|].
  exact (one_sided_implicit_construction Payloads.Boxed Boxed_movable
           [9; 9] (Payloads.le_bytes 8 1) {[ 1 := 7 ]} eq_refl).
Defined.

(** ** More on propagation *)

(** X7.  The macro never runs into the accessors' assertion: it ends the
    process only where evaluating its expression does, or where, on a
    failure, initialising the enclosing function's return object does. *)
Theorem propagate_aborts_only_with_its_operands
  (Ok Err : Class) (R : Type) (return_from : list Z -> M (R * list Z))
  (expression : M Full.Result) (h : heap) :
  PROPAGATE Ok Err R return_from expression h = Abort <->
  match expression h with
  | Abort => True
  | Ret (r, h1) =>
      Full.is_error r = true /\
      return_from (object_at Err (Full.m_memory_buffer r)) h1 = Abort
  end.
Proof.
  unfold PROPAGATE, bind at 1.
  destruct (expression h) as [|[r h1]]; [done|].
  unfold Full.is_error, Full.error_value_rvalue, Full.ok_value_rvalue,
    Full.dtor, bind, lift, step, effect, ret.
  destruct (Full.m_is_ok r) eqn:Hflag; simpl.
  - destruct (move_construct Ok _ h1) as [[tmp v'] h2]. simpl.
    rewrite Hflag. split; [done|]. by intros [? _].
  - destruct (return_from _ h1) as [|[[out e'] h2]]; simpl.
    + done.
    + rewrite Hflag. split; [done|]. by intros [_ ?].
Qed.

Section PropagationIntoErrOnly.
Variables Ok Err : Class.
Hypothesis Err_movable : Movable Err.

Lemma ErrOnly_from_Err_xvalue_spec stale e h :
  length e = sizeof Err ->
  exists out h',
    ErrOnly.from_Err_xvalue Err stale e h
    = Ret ((out, (move_construct Err e h).1.2), h') /\
    ErrOnly.m_is_ok out = false /\
    observe Err h' (object_at Err (ErrOnly.m_memory_buffer out))
    = observe Err h e.
Proof.
  intros Hlen.
  pose proof (move_size Err Err_movable e h Hlen) as [Hval _].
  pose proof (move_value Err Err_movable e h Hlen) as Hobs.
  unfold ErrOnly.from_Err_xvalue, bind at 1, step.
  destruct (move_construct Err e h) as [[val e'] h1] eqn:Hmove. simpl in *.
  destruct (ErrOnly_from_Err_spec Err Err_movable stale val h1 Hval)
    as (out & h2 & Hrun & Hflag & _ & Hobs').
  exists out, h2. unfold bind, ret. rewrite Hrun.
  repeat split; try done. congruence.
Qed.

End PropagationIntoErrOnly.

(** X8.  The macro also serves a function that returns [Result<void, Err>]:
    on a failure that function returns at once, whatever follows, an
    Err-only [Result] whose [error_value()] equals the failure payload of
    the inner [Result]. *)
Theorem propagate_into_err_only
  (Ok Err : Class) (Err_movable : Movable Err)
  (stale : list Z) (expression : M Full.Result)
  (h h1 : heap) (r : Full.Result)
  (Hrun : expression h = Ret (r, h1))
  (Hsized : Full.sized Ok Err r)
  (Hfail : Full.is_error r = true) :
  exists out h2 x,
    (forall (B : Type) (rest : list Z -> M (flow ErrOnly.Result B)),
       seq (PROPAGATE Ok Err ErrOnly.Result
              (ErrOnly.from_Err_xvalue Err stale) expression) rest h
       = Ret (Return out, h2)) /\
    ErrOnly.is_error out = true /\
    ErrOnly.error_value_ref Err out = Ret x /\
    observe Err h2 x = observe Err h1 (object_at Err (Full.m_memory_buffer r)).
Proof.
  unfold Full.is_error in Hfail. apply negb_true_iff in Hfail.
  assert (Hlen : length (object_at Err (Full.m_memory_buffer r)) = sizeof Err).
  { apply object_at_length. rewrite Hsized. apply BUFFER_SIZE_fits_Err. }
  destruct (ErrOnly_from_Err_xvalue_spec Err Err_movable stale _ h1 Hlen)
    as (out & h2 & Hret & Hout & Hobs).
  exists out, h2, (object_at Err (ErrOnly.m_memory_buffer out)).
  repeat split.
  - intros B rest. unfold seq, PROPAGATE, bind at 1 2. rewrite Hrun.
    unfold Full.is_error, Full.error_value_rvalue, bind, lift, ret.
    rewrite Hfail. simpl. rewrite Hret.
    pose proof (move_size Err Err_movable _ h1 Hlen) as [_ Hrest].
    unfold Full.dtor, effect. simpl. rewrite Hfail.
    rewrite object_at_place by done.
    by rewrite (move_residue Err Err_movable _ h1 h2 Hlen).
  - unfold ErrOnly.is_error. by rewrite Hout.
  - unfold ErrOnly.error_value_ref. by rewrite Hout.
  - exact Hobs.
Qed.

(** An instance of X8: [PROPAGATE(Result<int, Boxed>::error(7))] in a
    function returning [Result<void, Boxed>]. *)
Lemma propagate_into_err_only_witness :
  Movable Payloads.Boxed /\
  Full.error Payloads.int Payloads.Boxed [] 7 ∅
  = Ret ({| Full.m_is_ok := false;
            Full.m_memory_buffer := Payloads.le_bytes 8 1 |}, {[ 1 := 7 ]}) /\
  Full.sized Payloads.int Payloads.Boxed
    {| Full.m_is_ok := false;
       Full.m_memory_buffer := Payloads.le_bytes 8 1 |} /\
  Full.is_error {| Full.m_is_ok := false;
                   Full.m_memory_buffer := Payloads.le_bytes 8 1 |} = true /\
  exists out h2 x,
    (forall (B : Type) (rest : list Z -> M (flow ErrOnly.Result B)),
       seq (PROPAGATE Payloads.int Payloads.Boxed ErrOnly.Result
              (ErrOnly.from_Err_xvalue Payloads.Boxed [])
              (Full.error Payloads.int Payloads.Boxed [] 7)) rest ∅
       = Ret (Return out, h2)) /\
    ErrOnly.is_error out = true /\
    ErrOnly.error_value_ref Payloads.Boxed out = Ret x /\
    observe Payloads.Boxed h2 x = Some 7.
Proof.
  split; [exact Boxed_movable|]. split; [reflexivity|].
  split; [reflexivity|]. split; [reflexivity|].
  exact (propagate_into_err_only Payloads.int Payloads.Boxed Boxed_movable []
           (Full.error Payloads.int Payloads.Boxed [] 7) ∅ {[ 1 := 7 ]}
           {| Full.m_is_ok := false;
              Full.m_memory_buffer := Payloads.le_bytes 8 1 |}
           eq_refl eq_refl eq_refl).
Defined.

Section ConsumeFacts.
Variables Ok Err : Class.
Hypothesis Ok_movable : Movable Ok.
Hypothesis Err_movable : Movable Err.

(** Moving the success payload out, and the source's destructor after. *)
Lemma take_ok_then_dtor r h :
  Full.sized Ok Err r -> Full.m_is_ok r = true ->
  exists obj r' h',
    Client.take_ok Ok r h = Ret ((obj, r'), h') /\
    observe Ok h' obj = observe Ok h (object_at Ok (Full.m_memory_buffer r)) /\
    Full.sized Ok Err r' /\
    Full.dtor Ok Err r' h' = Ret (tt, h').
Proof.
  intros Hsized Hflag.
  pose proof (payload_size_Ok Ok Err r Hsized) as Hlen.
  rewrite take_ok_unfold, Hflag. eexists _, _, _. split; [reflexivity|].
  split; [by apply (move_value Ok Ok_movable)|]. split.
  - apply write_back_sized; [done|].
    destruct (move_size Ok Ok_movable _ h Hlen) as [_ ->].
    apply BUFFER_SIZE_fits_Ok.
  - by apply (dtor_after_move_out_ok Ok Err Ok_movable).
Qed.

(** Moving the failure payload out, and the source's destructor after. *)
Lemma take_error_then_dtor r h :
  Full.sized Ok Err r -> Full.m_is_ok r = false ->
  exists obj r' h',
    Client.take_error Err r h = Ret ((obj, r'), h') /\
    observe Err h' obj = observe Err h (object_at Err (Full.m_memory_buffer r)) /\
    Full.sized Ok Err r' /\
    Full.dtor Ok Err r' h' = Ret (tt, h').
Proof.
  intros Hsized Hflag.
  pose proof (payload_size_Err Ok Err r Hsized) as Hlen.
  rewrite take_error_unfold, Hflag. eexists _, _, _. split; [reflexivity|].
  split; [by apply (move_value Err Err_movable)|]. split.
  - apply write_back_sized; [done|].
    destruct (move_size Err Err_movable _ h Hlen) as [_ ->].
    apply BUFFER_SIZE_fits_Err.
  - by apply (dtor_after_move_out_error Ok Err Err_movable).
Qed.

End ConsumeFacts.

(** X9.  Moving the live payload out through a consuming accessor gives an
    object equal to the payload, the buffer keeps its size, and when the
    source is destroyed afterwards its destructor leaves the store, and
    with it the object moved out, alone. *)
Theorem consumed_source_destructs_harmlessly
  (Ok Err : Class) (Ok_movable : Movable Ok) (Err_movable : Movable Err)
  (r : Full.Result) (h : heap) (Hsized : Full.sized Ok Err r) :
  if Full.is_ok r then
    exists obj r' h',
      Client.take_ok Ok r h = Ret ((obj, r'), h') /\
      observe Ok h' obj = observe Ok h (object_at Ok (Full.m_memory_buffer r)) /\
      Full.sized Ok Err r' /\
      Full.dtor Ok Err r' h' = Ret (tt, h')
  else
    exists obj r' h',
      Client.take_error Err r h = Ret ((obj, r'), h') /\
      observe Err h' obj = observe Err h (object_at Err (Full.m_memory_buffer r)) /\
      Full.sized Ok Err r' /\
      Full.dtor Ok Err r' h' = Ret (tt, h').
Proof.
  unfold Full.is_ok. destruct (Full.m_is_ok r) eqn:Hflag.
  - by apply (take_ok_then_dtor Ok Err Ok_movable).
  - by apply (take_error_then_dtor Ok Err Err_movable).
Qed.

(** An instance of X9: moving the [Boxed] of 7 out of a
    [Result<Boxed, int>]; the cell is still there once the source is
    destroyed. *)
Lemma consumed_source_destructs_harmlessly_witness :
  Movable Payloads.Boxed /\ Movable Payloads.int /\
  Full.sized Payloads.Boxed Payloads.int
    {| Full.m_is_ok := true;
       Full.m_memory_buffer := Payloads.le_bytes 8 1 |} /\
  exists obj r' h',
    Client.take_ok Payloads.Boxed
      {| Full.m_is_ok := true;
         Full.m_memory_buffer := Payloads.le_bytes 8 1 |} {[ 1 := 7 ]}
    = Ret ((obj, r'), h') /\
    observe Payloads.Boxed h' obj = Some 7 /\
    Full.sized Payloads.Boxed Payloads.int r' /\
    Full.dtor Payloads.Boxed Payloads.int r' h' = Ret (tt, h').
Proof.
  split; [exact Boxed_movable|]. split; [exact int_movable|].
  split; [reflexivity|].
  exact (consumed_source_destructs_harmlessly Payloads.Boxed Payloads.int
           Boxed_movable int_movable
           {| Full.m_is_ok := true;
              Full.m_memory_buffer := Payloads.le_bytes 8 1 |}
           {[ 1 := 7 ]} eq_refl).
Defined.

(** X12.  A value handed to a [Result], moved out again through the
    consuming accessor, and outliving the [Result], is still the value that
    was handed in; this holds on the success side and on the failure
    side. *)
Theorem value_passes_through
  (Ok Err : Class) (Ok_movable : Movable Ok) (Err_movable : Movable Err)
  (stale v e : list Z) (h : heap)
  (Hv : length v = sizeof Ok) (He : length e = sizeof Err) :
  (exists obj h',
     (r <- Full.from_Ok Ok Err stale v ;;
      ' (obj, r') <- Client.take_ok Ok r ;;
      _ <- Full.dtor Ok Err r' ;;
      ret obj) h = Ret (obj, h') /\
     observe Ok h' obj = observe Ok h v) /\
  (exists obj h',
     (r <- Full.from_Err Ok Err stale e ;;
      ' (obj, r') <- Client.take_error Err r ;;
      _ <- Full.dtor Ok Err r' ;;
      ret obj) h = Ret (obj, h') /\
     observe Err h' obj = observe Err h e).
Proof.
  split.
  - destruct (from_Ok_spec Ok Err Ok_movable stale v h Hv)
      as (r & h1 & Hrun & Hflag & Hsized & _ & Hobs).
    destruct (take_ok_then_dtor Ok Err Ok_movable r h1 Hsized Hflag)
      as (obj & r' & h2 & Htake & Hobj & _ & Hdtor).
    exists obj, h2. unfold bind, ret. rewrite Hrun, Htake, Hdtor.
    split; [done|congruence].
  - destruct (from_Err_spec Ok Err Err_movable stale e h He)
      as (r & h1 & Hrun & Hflag & Hsized & _ & Hobs).
    destruct (take_error_then_dtor Ok Err Err_movable r h1 Hsized Hflag)
      as (obj & r' & h2 & Htake & Hobj & _ & Hdtor).
    exists obj, h2. unfold bind, ret. rewrite Hrun, Htake, Hdtor.
    split; [done|congruence].
Qed.

(** An instance of X12: a [Boxed] of 7 and the [int] -5 through a
    [Result<Boxed, int>]. *)
Lemma value_passes_through_witness :
  Movable Payloads.Boxed /\ Movable Payloads.int /\
  length (Payloads.le_bytes 8 1) = sizeof Payloads.Boxed /\
  length (Payloads.le_bytes 4 (-5)) = sizeof Payloads.int /\
  (exists obj h',
     (r <- Full.from_Ok Payloads.Boxed Payloads.int [] (Payloads.le_bytes 8 1) ;;
      ' (obj, r') <- Client.take_ok Payloads.Boxed r ;;
      _ <- Full.dtor Payloads.Boxed Payloads.int r' ;;
      ret obj) {[ 1 := 7 ]} = Ret (obj, h') /\
     observe Payloads.Boxed h' obj = Some 7) /\
  (exists obj h',
     (r <- Full.from_Err Payloads.Boxed Payloads.int []
             (Payloads.le_bytes 4 (-5)) ;;
      ' (obj, r') <- Client.take_error Payloads.int r ;;
      _ <- Full.dtor Payloads.Boxed Payloads.int r' ;;
      ret obj) {[ 1 := 7 ]} = Ret (obj, h') /\
     observe Payloads.int h' obj = -5).
Proof.
  split; [exact Boxed_movable|]. split; [exact int_movable|].
  split; [reflexivity|]. split; [reflexivity|].
  exact (value_passes_through Payloads.Boxed Payloads.int
           Boxed_movable int_movable [] (Payloads.le_bytes 8 1)
           (Payloads.le_bytes 4 (-5)) {[ 1 := 7 ]} eq_refl eq_refl).
Defined.

(** ** More on instantiation *)

(** X11.  Where the header's own checks, the choice of specialisation and
    the [static_assert]s, let [Result<Ok, Err>] through, the two type
    arguments differ and the form is the Ok-only one when [Err] is [void],
    the Err-only one when [Ok] is [void], and the full one otherwise; the
    assertion about identical types fires exactly for two equal non-void
    types, so the ones in the one-sided forms never do. *)
Theorem accepted_instantiations_have_distinct_types
  (Ok Err : Template.type_name) :
  match Template.instantiate Ok Err with
  | Template.Accepted f =>
      Ok <> Err /\
      f = match Ok, Err with
          | _, Template.Void => Template.Ok_only
          | Template.Void, _ => Template.Err_only
          | _, _ => Template.Primary
          end
  | Template.Rejected _ => True
  end /\
  (Template.instantiate Ok Err = Template.Rejected Template.same_types_message
   <-> exists name, Ok = Template.Named name /\ Err = Template.Named name).
Proof.
  destruct Ok as [|a], Err as [|b].
  - split; [done|]. split; [done|]. by intros (name & Hname & _).
  - split; [by cbn|]. split; [done|]. by intros (name & Hname & _).
  - split; [by cbn|]. split; [done|]. by intros (name & _ & Hname).
  - unfold Template.instantiate, Template.matching. simpl.
    unfold Template.static_assert, Template.is_same_v. simpl.
    destruct (String.eqb_spec a b) as [->|Hne]; simpl.
    + split; [done|]. split; [by exists b|done].
    + split; [split; [congruence|done]|].
      split; [done|]. intros (name & [= ->] & [= ->]). done.
Qed.

(** ** The live alternative *)

Section LifeFacts.
Variables Ok Err : Class.
Hypothesis Ok_movable : Movable Ok.
Hypothesis Err_movable : Movable Err.
Variables alive_Ok alive_Err : heap -> list Z -> Prop.
Hypothesis Ok_respects : Respects Ok alive_Ok.
Hypothesis Err_respects : Respects Err alive_Err.

Local Abbreviation holds := (Lifetime.holds Ok Err alive_Ok alive_Err).

(** The discriminant lets at most one alternative be live. *)
Lemma holds_unique r h a a' : holds r h a -> holds r h a' -> a = a'.
Proof.
  unfold Lifetime.holds, Full.is_ok, Full.is_error.
  destruct a, a'; try done; intros [Ha _] [Ha' _];
    destruct (Full.m_is_ok r); done.
Qed.

(** Each builder leaves a [Result] of the right size in which the
    alternative it constructed is live. *)
Lemma build_holds stale b h :
  Lifetime.presentable Ok Err alive_Ok alive_Err b h ->
  exists r0 h0,
    Lifetime.build Ok Err stale b h = Ret (r0, h0) /\
    Full.sized Ok Err r0 /\
    holds r0 h0 (Lifetime.built Ok Err b).
Proof.
  pose proof (BUFFER_SIZE_fits_Ok Ok Err) as HfitOk.
  pose proof (BUFFER_SIZE_fits_Err Ok Err) as HfitErr.
  destruct b as [v|e|a|a]; simpl.
  - intros [Hlen Halive].
    pose proof (move_size Ok Ok_movable v h Hlen) as [Hobj _].
    pose proof (move_alive Ok alive_Ok Ok_respects v h Hlen Halive) as [Hnew _].
    pose proof (move_residue Ok Ok_movable v h) as Hres.
    unfold Full.from_Ok, bind, step, effect, ret.
    destruct (move_construct Ok v h) as [[obj val'] h1]. simpl in *.
    eexists _, _. split; [reflexivity|]. rewrite (Hres h1 Hlen). split.
    + unfold Full.sized. simpl.
      rewrite place_length; rewrite uninitialized_length; [done|].
      by rewrite Hobj.
    + split; [done|]. simpl. by rewrite object_at_place.
  - intros [Hlen Halive].
    pose proof (move_size Err Err_movable e h Hlen) as [Hobj _].
    pose proof (move_alive Err alive_Err Err_respects e h Hlen Halive)
      as [Hnew _].
    pose proof (move_residue Err Err_movable e h) as Hres.
    unfold Full.from_Err, bind, step, effect, ret.
    destruct (move_construct Err e h) as [[obj val'] h1]. simpl in *.
    eexists _, _. split; [reflexivity|]. rewrite (Hres h1 Hlen). split.
    + unfold Full.sized. simpl.
      rewrite place_length; rewrite uninitialized_length; [done|].
      by rewrite Hobj.
    + split; [done|]. simpl. by rewrite object_at_place.
  - intros _.
    pose proof (construct_size Ok Ok_movable a h) as Hobj.
    pose proof (construct_alive Ok alive_Ok Ok_respects a h) as Hnew.
    unfold Full.ok, bind, step, ret.
    destruct (construct Ok a h) as [obj h1]. simpl in *.
    eexists _, _. split; [reflexivity|]. split.
    + unfold Full.sized. simpl.
      rewrite place_length; rewrite uninitialized_length; [done|].
      by rewrite Hobj.
    + split; [done|]. simpl. by rewrite object_at_place.
  - intros _.
    pose proof (construct_size Err Err_movable a h) as Hobj.
    pose proof (construct_alive Err alive_Err Err_respects a h) as Hnew.
    unfold Full.error, bind, step, ret.
    destruct (construct Err a h) as [obj h1]. simpl in *.
    eexists _, _. split; [reflexivity|]. split.
    + unfold Full.sized. simpl.
      rewrite place_length; rewrite uninitialized_length; [done|].
      by rewrite Hobj.
    + split; [done|]. simpl. by rewrite object_at_place.
Qed.

(** A gentle operation fits. *)
Lemma gentle_fits op :
  Lifetime.gentle Ok Err alive_Ok alive_Err op -> Client.fits Ok Err op.
Proof. destruct op; simpl; tauto. Qed.

(** One operation leaves the live alternative live. *)
Lemma perform_keeps_holds op r r' h h' a :
  Lifetime.gentle Ok Err alive_Ok alive_Err op ->
  Full.sized Ok Err r ->
  holds r h a ->
  Client.perform Ok Err op r h = Ret (r', h') ->
  holds r' h' a.
Proof.
  intros Hgentle Hsized Hholds.
  pose proof (payload_size_Ok Ok Err r Hsized) as HlenOk.
  pose proof (payload_size_Err Ok Err r Hsized) as HlenErr.
  unfold Lifetime.holds, Full.is_ok, Full.is_error in *.
  destruct op as [| |m|m| |]; simpl in *.
  - unfold ret. by intros [= <- <-].
  - unfold ret. by intros [= <- <-].
  - destruct Hgentle as [Hsize Hkeeps].
    unfold Client.call_on_ok, Full.ok_value_ref, bind, lift, ret.
    destruct (Full.m_is_ok r) eqn:Hflag; simpl; [|done].
    destruct (m _ h) as [|[x' h1]] eqn:Hm; [done|].
    intros [= <- <-]. simpl. rewrite Hflag.
    destruct a; destruct Hholds as [Hnamed Halive]; [|done].
    split; [done|].
    rewrite object_at_place by exact (Hsize _ _ _ _ HlenOk Hm).
    exact (Hkeeps _ _ _ _ Halive Hm).
  - destruct Hgentle as [Hsize Hkeeps].
    unfold Client.call_on_error, Full.error_value_ref, bind, lift, ret.
    destruct (Full.m_is_ok r) eqn:Hflag; simpl; [done|].
    destruct (m _ h) as [|[x' h1]] eqn:Hm; [done|].
    intros [= <- <-]. simpl. rewrite Hflag.
    destruct a; destruct Hholds as [Hnamed Halive]; [done|].
    split; [done|].
    rewrite object_at_place by exact (Hsize _ _ _ _ HlenErr Hm).
    exact (Hkeeps _ _ _ _ Halive Hm).
  - unfold bind at 1. rewrite take_ok_unfold.
    destruct (Full.m_is_ok r) eqn:Hflag; [|done].
    unfold ret. intros [= <- <-]. simpl. rewrite Hflag.
    destruct a; destruct Hholds as [Hnamed Halive]; [|done].
    split; [done|].
    destruct (move_size Ok Ok_movable _ h HlenOk) as [_ Hrest].
    rewrite object_at_place by done.
    by apply (move_alive Ok alive_Ok Ok_respects).
  - unfold bind at 1. rewrite take_error_unfold.
    destruct (Full.m_is_ok r) eqn:Hflag; [done|].
    unfold ret. intros [= <- <-]. simpl. rewrite Hflag.
    destruct a; destruct Hholds as [Hnamed Halive]; [done|].
    split; [done|].
    destruct (move_size Err Err_movable _ h HlenErr) as [_ Hrest].
    rewrite object_at_place by done.
    by apply (move_alive Err alive_Err Err_respects).
Qed.

(** A whole sequence of operations leaves the live alternative live. *)
Lemma perform_all_keeps_holds ops r r' h h' a :
  Forall (Lifetime.gentle Ok Err alive_Ok alive_Err) ops ->
  Full.sized Ok Err r ->
  holds r h a ->
  Client.perform_all Ok Err ops r h = Ret (r', h') ->
  holds r' h' a.
Proof.
  intros Hgentle. revert r h.
  induction Hgentle as [|op ops Hop Hops IH]; intros r h Hsized Hholds; simpl.
  - unfold ret. by intros [= <- <-].
  - unfold bind.
    destruct (Client.perform Ok Err op r h) as [|[r1 h1]] eqn:Hstep; [done|].
    apply IH.
    + apply (perform_keeps_size Ok Err Ok_movable Err_movable op r r1 h h1);
        [by apply gentle_fits|done|done].
    + by apply (perform_keeps_holds op r r1 h h1).
Qed.

End LifeFacts.



(** Without a payload no alternative is live: not in the staging object the
    factories start from, here over stale bytes that point nowhere, and not
    in a [Result] whose payload a copy of it has destroyed. *)
Remark no_payload_no_live_alternative (a : Client.alternative) :
  ~ Lifetime.holds Payloads.int Payloads.Boxed
      Payloads.int_alive Payloads.Boxed_alive
      (Full.default_init Payloads.int Payloads.Boxed (Payloads.le_bytes 8 5))
      ∅ a /\
  (exists r h,
     (r <- Full.ok Payloads.Boxed Payloads.int [] 7 ;;
      c <- Full.copy_ctor r ;;
      _ <- Full.dtor Payloads.Boxed Payloads.int c ;;
      ret r) ∅ = Ret (r, h) /\
     ~ Lifetime.holds Payloads.Boxed Payloads.int
         Payloads.Boxed_alive Payloads.int_alive r h a).
Proof.
  split.
  - destruct a; intros [Hflag Halive]; [done|].
    destruct Halive as [Hnull|[[v Hv]|Hfull]].
    + by vm_compute in Hnull.
    + by vm_compute in Hv.
    + by vm_compute in Hfull.
  - exists {| Full.m_is_ok := true;
              Full.m_memory_buffer := Payloads.le_bytes 8 1 |}, ∅.
    split; [by vm_compute|].
    destruct a; intros [Hflag Halive]; [|done].
    destruct Halive as [Hnull|[[v Hv]|Hfull]].
    + by vm_compute in Hnull.
    + by vm_compute in Hv.
    + by vm_compute in Hfull.
Qed.
